(** * flax.nnx [Module]: a shallow embedding of [flax/nnx/nnx/module.py]

    Python objects live in a store indexed by object identity; a module is
    an attribute dictionary together with its class, a [Variable] is a typed
    box around a raw value.  Methods that mutate ([sow], [set_attributes],
    [train], [eval]) are store transformers returning an outcome next to the
    store they leave behind, so that what has been written before a [raise]
    stays visible. *)

From Stdlib Require Import ZArith String Ascii.
From stdpp Require Import gmap strings list fin_maps sorting.

Local Open Scope string_scope.
Local Open Scope list_scope.
Set Warnings "-register-all,-clear-no-such-hyp".

(** ** Values and objects *)

(** [id(obj)] of a heap object. *)
Abbreviation addr := positive.

(** [flax.typing.Key] / [PathParts]: attribute names and tuples of them. *)
Definition Key := string.
Definition PathParts := list Key.

(** Python values.  Immutable data is kept by value, anything with an
    identity ([Module]s, [Variable]s) is a reference into the store.
    [VOther t] is an opaque object whose type is named [t] (an array, a
    bound method, ...). *)
Inductive value :=
| VNone
| VBool (b : bool)
| VInt (n : Z)
| VStr (s : string)
| VTuple (xs : list value)
| VOther (type_name : string)
| VRef (a : addr).

(** A class: its [__name__], whether it derives from [Module], and the
    attributes found on the type (methods, class-level defaults), which
    [hasattr]/[getattr] see once the instance dictionary has no entry. *)
Record class_ := Class {
  cls_name : string;
  cls_is_module : bool;
  cls_attrs : gmap string value;
}.

(** Heap objects: instances of [nnx.Object] (the graph nodes; a [Module]
    when the class says so) with their [vars(self)], and [Variable]
    instances with their exact type and [raw_value]. *)
Inductive obj :=
| ObjectInstance (cls : class_) (vars : gmap string value)
| VariableInstance (type : string) (raw_value : value).

Abbreviation heap := (gmap addr obj).

Inductive message :=
| Msg (s : string)
| MsgNotFound (remaining_attributes : gset string).

Inductive exn :=
| ValueError (msg : message)
| TypeError (msg : message).

Inductive outcome (A : Type) :=
| Ok (a : A)
| Raise (e : exn).
Arguments Ok {A} a.
Arguments Raise {A} e.

(** ** Attribute access *)

Definition getattr (h : heap) (o : addr) (name : string) : option value :=
  match h !! o with
  | Some (ObjectInstance cls vars) =>
      match vars !! name with
      | Some v => Some v
      | None => cls_attrs cls !! name
      end
  | _ => None
  end.

Definition hasattr (h : heap) (o : addr) (name : string) : bool :=
  bool_decide (is_Some (getattr h o name)).

Definition setattr (o : addr) (name : string) (v : value) (h : heap) : heap :=
  match h !! o with
  | Some (ObjectInstance cls vars) =>
      <[o := ObjectInstance cls (<[name := v]> vars)]> h
  | _ => h
  end.

(** [isinstance(v, Module)] *)
Definition is_Module (h : heap) (v : value) : bool :=
  match v with
  | VRef a =>
      match h !! a with
      | Some (ObjectInstance cls _) => cls_is_module cls
      | _ => false
      end
  | _ => false
  end.

(** [isinstance(v, Variable)], giving the box, [type(v)] and [v.raw_value]. *)
Definition as_Variable (h : heap) (v : value) : option (addr * string * value) :=
  match v with
  | VRef a =>
      match h !! a with
      | Some (VariableInstance ty raw) => Some (a, ty, raw)
      | _ => None
      end
  | _ => None
  end.

(** [type(v).__name__] *)
Definition type_name (h : heap) (v : value) : string :=
  match v with
  | VNone => "NoneType"
  | VBool _ => "bool"
  | VInt _ => "int"
  | VStr _ => "str"
  | VTuple _ => "tuple"
  | VOther t => t
  | VRef a =>
      match h !! a with
      | Some (ObjectInstance cls _) => cls_name cls
      | Some (VariableInstance ty _) => ty
      | None => "object"
      end
  end.

(** ** [first_from] *)

Fixpoint first_from {A : Type} (args : list (option A)) (error_msg : string)
  : outcome A :=
  match args with
  | [] => Raise (ValueError (Msg error_msg))
  | arg :: args' =>
      match arg with
      | Some a => Ok a
      | None => first_from args' error_msg
      end
  end.

(** ** [sow] *)

(** [tuple_reduce = lambda xs, x: xs + (x,)]; adding a tuple to something
    that is not a tuple is a [TypeError]. *)
Definition tuple_reduce (xs x : value) : outcome value :=
  match xs with
  | VTuple l => Ok (VTuple (l ++ [x]))
  | _ => Raise (TypeError (Msg "can only concatenate tuple to tuple"))
  end.

(** [tuple_init = lambda: ()] *)
Definition tuple_init (_ : unit) : value := VTuple [].

Definition sow (self : addr) (variable_type : string) (name : string)
    (value_ : value)
    (reduce_fn : value → value → outcome value)
    (init_fn : unit → value)
    (h : heap) : outcome unit * heap :=
  match getattr h self name with
  | Some variable =>
      match as_Variable h variable with
      | None =>
          (Raise (ValueError (Msg ("Expected '" ++ name ++
              "' to be a Variable, got " ++ type_name h variable)%string)), h)
      | Some (a, ty, raw_value) =>
          if negb (String.eqb ty variable_type) then
            (Raise (ValueError (Msg ("Expected '" ++ name ++
                "' to be of type '" ++ variable_type ++ "', got '" ++
                ty ++ "'")%string)), h)
          else
            match reduce_fn raw_value value_ with
            | Ok r => (Ok tt, <[a := VariableInstance ty r]> h)
            | Raise e => (Raise e, h)
            end
      end
  | None =>
      match reduce_fn (init_fn tt) value_ with
      | Ok reduced_value =>
          let a := fresh (dom h) in
          (Ok tt,
           setattr self name (VRef a)
             (<[a := VariableInstance variable_type reduced_value]> h))
      | Raise e => (Raise e, h)
      end
  end.

(** [for v in values: m.sow(T, name, v)] with the default [reduce_fn] and
    [init_fn]; the first call that raises ends the run. *)
Fixpoint sow_each (self : addr) (variable_type name : string)
    (values : list value) (h : heap) : outcome unit * heap :=
  match values with
  | [] => (Ok tt, h)
  | v :: values' =>
      match sow self variable_type name v tuple_reduce tuple_init h with
      | (Ok _, h') => sow_each self variable_type name values' h'
      | (Raise e, h') => (Raise e, h')
      end
  end.

(** ** Graph traversal *)

(** Python's [<=] on [str]: code point order. *)
Definition str_le (s1 s2 : string) : Prop := String.leb s1 s2 = true.

Definition item_le {V : Type} (x y : string * V) : Prop := str_le x.1 y.1.

Global Instance str_le_dec s1 s2 : Decision (str_le s1 s2).
Proof. unfold str_le. apply _. Defined.

Global Instance item_le_dec {V} (x y : string * V) : Decision (item_le x y).
Proof. unfold item_le. apply _. Defined.

(** Modelled from the spec: [graph.get_node_impl(node).node_dict(node)] is
    not in src.  A graph node is an object instance, and its node
    dictionary holds its attributes, which the examples in the docstrings
    of [iter_children] and [iter_modules] list sorted by name.  [None]
    stands for [is_node(node) == False]. *)
Definition node_dict (h : heap) (node : value)
  : option (addr * list (Key * value)) :=
  match node with
  | VRef a =>
      match h !! a with
      | Some (ObjectInstance _ vars) =>
          Some (a, merge_sort item_le (map_to_list vars))
      | _ => None
      end
  | _ => None
  end.

Definition yields := list (PathParts * value).

(** The loop [for key, value in node_dict.items(): yield from rec(value,
    visited, path_parts + (key,))] threading the shared [visited] set. *)
Fixpoint iter_items
    (rec : value → gset addr → PathParts → option (yields * gset addr))
    (items : list (Key * value)) (visited : gset addr)
    (path_parts : PathParts) : option (yields * gset addr) :=
  match items with
  | [] => Some ([], visited)
  | (key, v) :: items' =>
      match rec v visited (path_parts ++ [key]) with
      | Some (out1, visited1) =>
          match iter_items rec items' visited1 path_parts with
          | Some (out2, visited2) => Some (out1 ++ out2, visited2)
          | None => None
          end
      | None => None
      end
  end.

(** Modelled from the spec: [graph.iter_graph] is not in src.  It walks the
    attribute graph depth first, handles aliasing and cycles by visiting
    every node once (by identity), and yields a value after the values
    below it, the root last with the empty path, as the example in the
    docstring of [iter_modules] prints them.  Values that are not graph
    nodes are yielded as they are found.  [fuel] bounds the recursion
    depth; [None] means it ran out. *)
Fixpoint _iter_graph (fuel : nat) (h : heap) (node : value)
    (visited : gset addr) (path_parts : PathParts)
  : option (yields * gset addr) :=
  match fuel with
  | O => None
  | S fuel' =>
      match node_dict h node with
      | Some (a, items) =>
          if decide (a ∈ visited) then Some ([], visited)
          else
            match iter_items (_iter_graph fuel' h) items ({[a]} ∪ visited)
                    path_parts with
            | Some (out, visited') => Some (out ++ [(path_parts, node)], visited')
            | None => None
            end
      | None => Some ([(path_parts, node)], visited)
      end
  end.

(** A chain of distinct nodes is never longer than the store. *)
Definition iter_graph (h : heap) (node : value) : yields :=
  match _iter_graph (S (size h)) h node ∅ [] with
  | Some (out, _) => out
  | None => []
  end.

(** ** [Module.iter_modules], [Module.iter_children] *)

Definition as_Module (h : heap) (v : value) : option addr :=
  match v with
  | VRef a => if is_Module h v then Some a else None
  | _ => None
  end.

Definition iter_modules (h : heap) (self : addr) : list (PathParts * addr) :=
  omap (λ '(path, v), (λ a, (path, a)) <$> as_Module h v)
       (iter_graph h (VRef self)).

Definition iter_children (h : heap) (self : addr) : list (Key * addr) :=
  match node_dict h (VRef self) with
  | Some (_, items) =>
      omap (λ '(key, v), (λ a, (key, a)) <$> as_Module h v) items
  | None => []
  end.

(** ** [Module.set_attributes], [Module.train], [Module.eval] *)

(** [predicate(path, module)]: what a predicate is handed is the path and
    the module, of which it sees the identity, the class and the
    attributes. *)
Definition Predicate := PathParts → addr → obj → bool.

(** Modelled from the spec: [filterlib] is not in src.  A filter is the
    literal [True]/[False] or anything else [filterlib.to_predicate] turns
    into a predicate, given here by that predicate. *)
Inductive Filter :=
| FBool (b : bool)
| FPredicate (p : Predicate).

Definition to_predicate (f : Filter) : Predicate :=
  match f with
  | FBool b => λ _ _ _, b
  | FPredicate p => p
  end.

(** [**attributes]: keyword arguments in the order they were passed. *)
Definition kwargs := list (string * value).

(** [for name, value in attributes.items(): if hasattr(module, name): ...] *)
Fixpoint set_found (module : addr) (attributes : kwargs)
    (st : gset string * heap) : gset string * heap :=
  match attributes with
  | [] => st
  | (name, v) :: attributes' =>
      let '(remaining_attributes, h) := st in
      if hasattr h module name then
        set_found module attributes'
          (remaining_attributes ∖ {[name]}, setattr module name v h)
      else set_found module attributes' st
  end.

(** [for predicate in predicates: if predicate(path, module): ...; break] *)
Fixpoint for_predicates (predicates : list Predicate) (path : PathParts)
    (module : addr) (attributes : kwargs)
    (st : gset string * heap) : gset string * heap :=
  match predicates with
  | [] => st
  | predicate :: predicates' =>
      if match st.2 !! module with
         | Some o => predicate path module o
         | None => false
         end
      then set_found module attributes st
      else for_predicates predicates' path module attributes st
  end.

(** The loop runs over the generator [iter_modules] while it assigns to
    the modules it is handed.  The traversal is post-order and keeps the
    set of objects it has entered: when a module is yielded its own
    attributes have been read already, those of the objects still open
    were listed when they were entered, and an assignment to the yielded
    module touches no other object.  The modules yielded during the loop
    are therefore those of the traversal of the store the call started
    with, which is the list folded over here. *)
Definition set_attributes (self : addr) (filters : list Filter)
    (raise_if_not_found : bool) (attributes : kwargs) (h : heap)
  : outcome unit * heap :=
  let remaining_attributes : gset string := list_to_set attributes.*1 in
  let filters := match filters with [] => [FBool true] | _ => filters end in
  let predicates := to_predicate <$> filters in
  let '(remaining_attributes, h') :=
    foldl (λ st '(path, module),
             for_predicates predicates path module attributes st)
          (remaining_attributes, h) (iter_modules h self) in
  if bool_decide (remaining_attributes ≠ ∅) && raise_if_not_found then
    (Raise (ValueError (MsgNotFound remaining_attributes)), h')
  else (Ok tt, h').

(** A keyword given both explicitly and through [**attributes] is a
    [TypeError] at the call. *)
Definition call_set_attributes (self : addr) (fixed attributes : kwargs)
    (raise_if_not_found : bool) (h : heap) : outcome unit * heap :=
  if bool_decide (Exists (λ k, k ∈ "raise_if_not_found" :: fixed.*1)
                         attributes.*1) then
    (Raise (TypeError (Msg "got multiple values for keyword argument")), h)
  else set_attributes self [] raise_if_not_found (fixed ++ attributes) h.

Definition train (self : addr) (attributes : kwargs) (h : heap)
  : outcome unit * heap :=
  call_set_attributes self
    [("deterministic", VBool false); ("use_running_average", VBool false)]
    attributes false h.

Definition eval (self : addr) (attributes : kwargs) (h : heap)
  : outcome unit * heap :=
  call_set_attributes self
    [("deterministic", VBool true); ("use_running_average", VBool true)]
    attributes false h.

(** ** Reachability by attribute traversal *)

(** Following the keys of [path] from [v], one attribute of a graph node
    at a time. *)
Fixpoint resolve (h : heap) (v : value) (path : PathParts) : option value :=
  match path with
  | [] => Some v
  | key :: path' =>
      match v with
      | VRef a =>
          match h !! a with
          | Some (ObjectInstance _ vars) =>
              match vars !! key with
              | Some v' => resolve h v' path'
              | None => None
              end
          | _ => None
          end
      | _ => None
      end
  end.

(** The identity of [v] when it is a graph node. *)
Definition node_addr (h : heap) (v : value) : option addr :=
  fst <$> node_dict h v.

(** The graph nodes among what a traversal yielded. *)
Definition yielded_nodes (h : heap) (out : yields) : list addr :=
  omap (λ '(_, v), node_addr h v) out.

(** What one traversal step from [node], entered with the visited set [V]
    under the path [path], owes its caller: it only adds to the visited
    set, adds [node] itself, leaves every node it adds with all its node
    children added too, yields each added node once and nothing else among
    nodes, and labels what it yields with the path leading to it. *)
Definition children_visited (h : heap) (V V' : gset addr) : Prop :=
  ∀ x cls vars key c y,
    x ∈ V' → x ∉ V →
    h !! x = Some (ObjectInstance cls vars) → vars !! key = Some c →
    node_addr h c = Some y → y ∈ V'.

Definition yields_new_nodes (h : heap) (V V' : gset addr) (out : yields) : Prop :=
  NoDup (yielded_nodes h out) ∧
  ∀ b, b ∈ yielded_nodes h out ↔ b ∈ V' ∧ b ∉ V.

Definition visit_ok (h : heap) (node : value) (V : gset addr)
    (path : PathParts) (out : yields) (V' : gset addr) : Prop :=
  V ⊆ V' ∧
  (∀ a, node_addr h node = Some a → a ∈ V') ∧
  children_visited h V V' ∧
  yields_new_nodes h V V' out ∧
  ∀ p v, (p, v) ∈ out → ∃ q, p = path ++ q ∧ resolve h node q = Some v.

Definition items_ok (h : heap) (items : list (Key * value)) (V : gset addr)
    (path : PathParts) (out : yields) (V' : gset addr) : Prop :=
  V ⊆ V' ∧
  (∀ key c y, (key, c) ∈ items → node_addr h c = Some y → y ∈ V') ∧
  children_visited h V V' ∧
  yields_new_nodes h V V' out ∧
  ∀ p v, (p, v) ∈ out →
    ∃ key c q, (key, c) ∈ items ∧ p = path ++ key :: q ∧
               resolve h c q = Some v.

(** ** What [set_attributes] does to one module

    The loop over the attributes touches the yielded module only; these
    are its effect on that object and the names it finds there. *)

Definition obj_getattr (o : obj) (name : string) : option value :=
  match o with
  | ObjectInstance cls vars =>
      match vars !! name with
      | Some v => Some v
      | None => cls_attrs cls !! name
      end
  | VariableInstance _ _ => None
  end.

Definition obj_hasattr (o : obj) (name : string) : bool :=
  bool_decide (is_Some (obj_getattr o name)).

Definition obj_setattr (name : string) (v : value) (o : obj) : obj :=
  match o with
  | ObjectInstance cls vars => ObjectInstance cls (<[name := v]> vars)
  | VariableInstance _ _ => o
  end.

Fixpoint update_obj (attributes : kwargs) (o : obj) : obj :=
  match attributes with
  | [] => o
  | (name, v) :: attributes' =>
      if obj_hasattr o name then update_obj attributes' (obj_setattr name v o)
      else update_obj attributes' o
  end.

Definition found_names (attributes : kwargs) (o : obj) : gset string :=
  list_to_set (filter (λ name, obj_hasattr o name = true) attributes.*1).

(** The predicates [set_attributes] builds from its filters. *)
Definition predicates_of (filters : list Filter) : list Predicate :=
  to_predicate <$> match filters with [] => [FBool true] | _ => filters end.

(** The module satisfies at least one of the predicates. *)
Definition selected (predicates : list Predicate) (path : PathParts)
    (module : addr) (o : obj) : bool :=
  existsb (λ predicate : Predicate, predicate path module o) predicates.

Definition visit_obj (predicates : list Predicate) (attributes : kwargs)
    (path : PathParts) (module : addr) (o : obj) : obj :=
  if selected predicates path module o then update_obj attributes o else o.

(** The names [set_attributes] finds on no selected module. *)
Definition not_found (h : heap) (self : addr) (filters : list Filter)
    (attributes : kwargs) (name : string) : Prop :=
  name ∈ attributes.*1 ∧
  ∀ path module o,
    (path, module) ∈ iter_modules h self → h !! module = Some o →
    selected (predicates_of filters) path module o = true →
    hasattr h module name = false.

(** ** Pytree registration: [_module_flatten], [_module_unflatten] *)

(** [State.raw_mapping]: the flat mapping from path to leaf value. *)
Abbreviation State := (gmap PathParts value).

(** Python's [<=] on paths, tuples of [str]: the first position where the
    two differ decides, and a proper prefix comes first. *)
Fixpoint path_leb (p q : PathParts) : bool :=
  match p, q with
  | [], _ => true
  | _ :: _, [] => false
  | a :: p', b :: q' => if String.eqb a b then path_leb p' q' else String.ltb a b
  end.

Definition path_le (p q : PathParts) : Prop := path_leb p q = true.

Definition entry_le {V : Type} (x y : PathParts * V) : Prop := path_le x.1 y.1.

Global Instance path_le_dec p q : Decision (path_le p q).
Proof. unfold path_le. apply _. Defined.

Global Instance entry_le_dec {V} (x y : PathParts * V) : Decision (entry_le x y).
Proof. unfold entry_le. apply _. Defined.

(** A child handed to the pytree machinery: [(jtu.DictKey(key), value)]
    when flattening with keys, the bare value otherwise. *)
Inductive child :=
| KeyedChild (key : PathParts) (v : value)
| PlainChild (v : value).

(** The leaf of a child, which is what comes back for unflattening. *)
Definition child_value (c : child) : value :=
  match c with
  | KeyedChild _ v => v
  | PlainChild v => v
  end.

(** [State(zip(paths, variables))]: the mapping built from the pairs in
    order, a later pair replacing an earlier one with the same path. *)
Definition State_of (items : list (PathParts * value)) : State :=
  foldl (λ m '(path, v), <[path := v]> m) ∅ items.

Section Pytree.
(** [graph.split] and [graph.merge] are not in src; the two hooks are
    written over any pair of them.  [None] is a call that raised. *)
Context {GraphDef : Type}.
Variable split : heap → addr → option (GraphDef * State).
Variable merge : GraphDef → State → heap → option (addr * heap).

Definition _module_flatten (h : heap) (module : addr) (with_keys : bool)
  : option (list child * (list PathParts * GraphDef)) :=
  match split h module with
  | Some (graphdef, state) =>
      let key_values := merge_sort entry_le (map_to_list state) in
      let keys := key_values.*1 in
      let children :=
        if with_keys
        then (λ '(key, v), KeyedChild key v) <$> key_values
        else (λ '(_, v), PlainChild v) <$> key_values in
      Some (children, (keys, graphdef))
  | None => None
  end.

Definition _module_unflatten (paths_moduledef : list PathParts * GraphDef)
    (variables : list value) (h : heap) : option (addr * heap) :=
  let '(paths, graphdef) := paths_moduledef in
  merge graphdef (State_of (zip paths variables)) h.
End Pytree.

(** ** A model of [graph.split] and [graph.merge] *)

(** Modelled from the spec: [GraphDef] is not in src.  The structural
    description of a module: for every node its class and, attribute by
    attribute, what is stored there: a node or a [Variable] met for the
    first time (numbered in the order they are met), a reference to one
    met before (aliasing, cycles), or plain data kept as it is. *)
Inductive GraphDef :=
| NodeDef (cls : class_) (index : nat) (attributes : list (Key * GraphDef))
| NodeRef (index : nat)
| VariableDef (type : string) (index : nat)
| Static (v : value).

Definition split_state : Type := gmap addr nat * State.

Fixpoint split_items
    (rec : value → PathParts → split_state → option (GraphDef * split_state))
    (items : list (Key * value)) (path : PathParts) (st : split_state)
  : option (list (Key * GraphDef) * split_state) :=
  match items with
  | [] => Some ([], st)
  | (key, v) :: items' =>
      match rec v (path ++ [key]) st with
      | Some (g, st1) =>
          match split_items rec items' path st1 with
          | Some (gs, st2) => Some ((key, g) :: gs, st2)
          | None => None
          end
      | None => None
      end
  end.

(** Modelled from the spec: [graph.split] is not in src.  It turns the
    module into its structural description and the flat mapping from the
    path of each [Variable] to its value; an object met again is recorded
    by the number it got the first time. *)
Fixpoint _graph_flatten (fuel : nat) (h : heap) (v : value)
    (path : PathParts) (st : split_state) : option (GraphDef * split_state) :=
  match fuel with
  | O => None
  | S fuel' =>
      match v with
      | VRef a =>
          match st.1 !! a with
          | Some index => Some (NodeRef index, st)
          | None =>
              match h !! a with
              | Some (ObjectInstance cls vars) =>
                  let index := size st.1 in
                  match split_items (_graph_flatten fuel' h)
                          (merge_sort item_le (map_to_list vars)) path
                          (<[a := index]> st.1, st.2) with
                  | Some (attributes, st') =>
                      Some (NodeDef cls index attributes, st')
                  | None => None
                  end
              | Some (VariableInstance ty raw) =>
                  Some (VariableDef ty (size st.1),
                        (<[a := size st.1]> st.1, <[path := raw]> st.2))
              | None => None
              end
          end
      | _ => Some (Static v, st)
      end
  end.

Definition graph_split (h : heap) (node : addr) : option (GraphDef * State) :=
  match _graph_flatten (S (size h)) h (VRef node) [] (∅, ∅) with
  | Some (graphdef, (_, state)) => Some (graphdef, state)
  | None => None
  end.

Definition merge_state : Type := gmap nat addr * gmap addr obj.

(** Modelled from the spec: [graph.merge] is not in src.  It rebuilds the
    module from its description: a fresh object for every node and
    [Variable] of the description, the values of the [Variable]s taken
    from the mapping at their paths, references resolved to the objects
    already built. *)
Fixpoint _graph_unflatten (graphdef : GraphDef) (state : State)
    (path : PathParts) (st : merge_state) : option (value * merge_state) :=
  match graphdef with
  | NodeDef cls index attributes =>
      let a := fresh (dom st.2) in
      match
        (fix merge_items (attributes : list (Key * GraphDef))
             (st : merge_state)
           : option (list (Key * value) * merge_state) :=
           match attributes with
           | [] => Some ([], st)
           | (key, g) :: attributes' =>
               match _graph_unflatten g state (path ++ [key]) st with
               | Some (v, st1) =>
                   match merge_items attributes' st1 with
                   | Some (vs, st2) => Some ((key, v) :: vs, st2)
                   | None => None
                   end
               | None => None
               end
           end) attributes
          (<[index := a]> st.1, <[a := ObjectInstance cls ∅]> st.2)
      with
      | Some (items, st') =>
          Some (VRef a,
                (st'.1, <[a := ObjectInstance cls (list_to_map items)]> st'.2))
      | None => None
      end
  | NodeRef index =>
      match st.1 !! index with
      | Some a => Some (VRef a, st)
      | None => None
      end
  | VariableDef ty index =>
      match state !! path with
      | Some raw =>
          let a := fresh (dom st.2) in
          Some (VRef a,
                (<[index := a]> st.1, <[a := VariableInstance ty raw]> st.2))
      | None => None
      end
  | Static v => Some (v, st)
  end.

Definition graph_merge (graphdef : GraphDef) (state : State) (h : heap)
  : option (addr * heap) :=
  match _graph_unflatten graphdef state [] (∅, h) with
  | Some (VRef a, (_, h')) => Some (a, h')
  | _ => None
  end.

(** ** Bookkeeping of the split and merge runs *)

(** Every reference held by an attribute of the store leads to an object
    of the store: what a Python heap guarantees of itself. *)
Definition value_closed (h : heap) (v : value) : Prop :=
  match v with
  | VRef b => is_Some (h !! b)
  | _ => True
  end.

Definition obj_closed (h : heap) (o : obj) : Prop :=
  match o with
  | ObjectInstance _ vars => map_Forall (λ _ v, value_closed h v) vars
  | VariableInstance _ _ => True
  end.

Definition heap_closed (h : heap) : Prop :=
  map_Forall (λ _ o, obj_closed h o) h.

Global Instance value_closed_dec h v : Decision (value_closed h v).
Proof. destruct v; apply _. Defined.

Global Instance obj_closed_dec h o : Decision (obj_closed h o).
Proof. destruct o; apply _. Defined.

Global Instance heap_closed_dec h : Decision (heap_closed h).
Proof. unfold heap_closed. apply _. Defined.

(** Nesting depth of a description: what the traversal needs as fuel. *)
Fixpoint depth (g : GraphDef) : nat :=
  match g with
  | NodeDef _ _ attributes =>
      S (foldr (λ kg d, max (depth kg.2) d) 0 attributes)
  | _ => 0
  end.

Definition depth_items (gs : list (Key * GraphDef)) : nat :=
  foldr (λ kg d, max (depth kg.2) d) 0 gs.

(** The paths of the [Variable]s a description introduces. *)
Fixpoint variable_paths (g : GraphDef) (path : PathParts) : list PathParts :=
  match g with
  | NodeDef _ _ attributes =>
      (fix go (attributes : list (Key * GraphDef)) : list PathParts :=
         match attributes with
         | [] => []
         | (key, g') :: attributes' =>
             variable_paths g' (path ++ [key]) ++ go attributes'
         end) attributes
  | VariableDef _ _ => [path]
  | _ => []
  end.

Definition variable_paths_items (gs : list (Key * GraphDef))
    (path : PathParts) : list PathParts :=
  (fix go (attributes : list (Key * GraphDef)) : list PathParts :=
     match attributes with
     | [] => []
     | (key, g') :: attributes' =>
         variable_paths g' (path ++ [key]) ++ go attributes'
     end) gs.

(** What a split run does to its bookkeeping: the numbering only grows,
    numbers the objects of the store it meets, nests no deeper than the
    objects it numbers, and records a value at the path of every
    [Variable] it introduces and nowhere else. *)
Definition split_grows (h : heap) (d : nat) (vp : list PathParts)
    (st st' : split_state) : Prop :=
  st.1 ⊆ st'.1 ∧
  dom st'.1 ⊆ dom st.1 ∪ dom h ∧
  (size st.1 + d ≤ size st'.1)%nat ∧
  dom st'.2 = dom st.2 ∪ list_to_set vp.

(** The attribute loop of [_graph_unflatten], by name. *)
Definition _graph_unflatten_items (state : State) (path : PathParts)
  : list (Key * GraphDef) → merge_state
    → option (list (Key * value) * merge_state) :=
  fix merge_items attributes st :=
    match attributes with
    | [] => Some ([], st)
    | (key, g) :: attributes' =>
        match _graph_unflatten g state (path ++ [key]) st with
        | Some (v, st1) =>
            match merge_items attributes' st1 with
            | Some (vs, st2) => Some ((key, v) :: vs, st2)
            | None => None
            end
        | None => None
        end
    end.

(** The numbering of the rebuilt objects, read backwards, is the
    numbering a split of them keeps. *)
Definition inv_refs (idx : gmap nat addr) (refs2 : gmap addr nat) : Prop :=
  ∀ i a, idx !! i = Some a ↔ refs2 !! a = Some i.

Definition idx_ok (n : nat) (idx : gmap nat addr) (hm : heap) : Prop :=
  (∀ i, is_Some (idx !! i) ↔ (i < n)%nat) ∧
  (∀ i a, idx !! i = Some a → a ∈ dom hm).

(** What a merge run leaves: every number given out so far has its
    object, objects that were there are untouched, and the objects of new
    numbers are new. *)
Definition merged_ok (refs' : gmap addr nat) (idx : gmap nat addr)
    (hm : heap) (idx' : gmap nat addr) (hm' : heap) : Prop :=
  (∀ a i, refs' !! a = Some i → (i < size refs')%nat) ∧
  idx_ok (size refs') idx' hm' ∧
  idx ⊆ idx' ∧
  (∀ a, a ∈ dom hm → hm' !! a = hm !! a) ∧
  (∀ i a, idx' !! i = Some a → idx !! i = None → a ∉ dom hm).

(** Splitting what was merged, in any store that holds the new objects as
    the merge left them, gives the description back. *)
Definition resplit_ok {X : Type}
    (run : heap → split_state → option (X * split_state)) (x : X)
    (vp : list PathParts) (s : State) (refs refs' : gmap addr nat)
    (idx idx' : gmap nat addr) (hm hm' : heap) : Prop :=
  ∀ (hf : heap) refs2 st2,
    (∀ a, a ∈ dom hm' → a ∉ dom hm → hf !! a = hm' !! a) →
    inv_refs idx refs2 → size refs2 = size refs →
    ∃ refs2' st2',
      run hf (refs2, st2) = Some (x, (refs2', st2')) ∧
      inv_refs idx' refs2' ∧ size refs2' = size refs' ∧
      ∀ p, st2' !! p = if decide (p ∈ vp) then s !! p else st2 !! p.

Definition sim_at (n : nat) (h : heap) : Prop :=
  ∀ v path refs st g refs' st',
    _graph_flatten n h v path (refs, st) = Some (g, (refs', st')) →
    (∀ a i, refs !! a = Some i → (i < size refs)%nat) →
    ∀ s idx (hm : heap),
      idx_ok (size refs) idx hm →
      (∀ p, p ∈ variable_paths g path → is_Some (s !! p)) →
      ∃ v' idx' hm',
        _graph_unflatten g s path (idx, hm) = Some (v', (idx', hm')) ∧
        merged_ok refs' idx hm idx' hm' ∧
        resplit_ok (λ hf st2, _graph_flatten n hf v' path st2) g
          (variable_paths g path) s refs refs' idx idx' hm hm'.

(** ** A concrete model: the [Block] of the docstrings

    [Block] holds a [Linear] (with a [Param]), a [SubModule] with two more
    [Linear]s, a [Dropout] and a [BatchNorm]. *)

Definition module_class (name : string) : class_ :=
  Class name true
    (list_to_map [("train", VOther "method"); ("eval", VOther "method");
                  ("sow", VOther "method")]).

Definition block_heap : heap :=
  list_to_map [
    (1%positive, ObjectInstance (module_class "Block")
       (list_to_map [("linear", VRef 2%positive); ("submodule", VRef 3%positive);
                     ("dropout", VRef 6%positive); ("batch_norm", VRef 7%positive)]));
    (2%positive, ObjectInstance (module_class "Linear")
       (list_to_map [("kernel", VRef 10%positive)]));
    (3%positive, ObjectInstance (module_class "SubModule")
       (list_to_map [("linear1", VRef 4%positive); ("linear2", VRef 5%positive)]));
    (4%positive, ObjectInstance (module_class "Linear") ∅);
    (5%positive, ObjectInstance (module_class "Linear") ∅);
    (6%positive, ObjectInstance (module_class "Dropout")
       (list_to_map [("deterministic", VBool false);
                     ("rate", VOther "float")]));
    (7%positive, ObjectInstance (module_class "BatchNorm")
       (list_to_map [("use_running_average", VBool false)]));
    (10%positive, VariableInstance "Param" (VOther "Array"))
  ].

(** A [Linear] shared by two attributes of its parent (tied weights). *)
Definition shared_heap : heap :=
  list_to_map [
    (1%positive, ObjectInstance (module_class "Tied")
       (list_to_map [("a", VRef 2%positive); ("b", VRef 2%positive)]));
    (2%positive, ObjectInstance (module_class "Linear") ∅)
  ].

(** [nnx.Dropout] used as a filter: the modules of that type. *)
Definition of_type (name : string) : Filter :=
  FPredicate (λ _ _ o,
    match o with
    | ObjectInstance cls _ => String.eqb (cls_name cls) name
    | VariableInstance _ _ => false
    end).

(** ** Further operations and notions *)

(** [for v in values: m.sow(T, name, v, reduce_fn, init_fn)]; the first
    call that raises ends the run. *)
Fixpoint sow_all (self : addr) (variable_type name : string)
    (reduce_fn : value → value → outcome value) (init_fn : unit → value)
    (values : list value) (h : heap) : outcome unit * heap :=
  match values with
  | [] => (Ok tt, h)
  | v :: values' =>
      match sow self variable_type name v reduce_fn init_fn h with
      | (Ok _, h') =>
          sow_all self variable_type name reduce_fn init_fn values' h'
      | (Raise e, h') => (Raise e, h')
      end
  end.

(** [functools.reduce(reduce_fn, values, acc)], stopping at the first
    call that raises. *)
Fixpoint reduce_all (reduce_fn : value → value → outcome value)
    (acc : value) (values : list value) : outcome value :=
  match values with
  | [] => Ok acc
  | v :: values' =>
      match reduce_fn acc v with
      | Ok acc' => reduce_all reduce_fn acc' values'
      | Raise e => Raise e
      end
  end.

(** [reduce_fn=lambda prev, curr: prev+curr] of the docstring of [sow], on
    integers. *)
Definition add_reduce (prev curr : value) : outcome value :=
  match prev, curr with
  | VInt p, VInt c => Ok (VInt (p + c))
  | _, _ => Raise (TypeError (Msg "unsupported operand type(s) for +"))
  end.

(** The keywords [train] and [eval] pass themselves; meeting one of them
    again among the extra attributes is the clash. *)
Definition mode_keywords : list string :=
  ["raise_if_not_found"; "deterministic"; "use_running_average"].

(** What the traversal sees of an object: of a graph node its class and
    the attributes that hold graph nodes; nothing of a [Variable]. *)
Definition node_part (h : heap) (o : obj)
  : option (class_ * gmap string addr) :=
  match o with
  | ObjectInstance cls vars => Some (cls, omap (node_addr h) vars)
  | VariableInstance _ _ => None
  end.

(** Two stores with the same graph of nodes. *)
Definition same_graph (h h' : heap) : Prop :=
  ∀ a, h !! a ≫= node_part h = h' !! a ≫= node_part h'.

(** The modules among what a traversal yielded. *)
Definition yielded_modules (h : heap) (out : yields)
  : list (PathParts * addr) :=
  omap (λ '(path, v), (λ a, (path, a)) <$> as_Module h v) out.

(** The attributes that hold graph nodes. *)
Definition node_items (h : heap) (items : list (Key * value))
  : list (Key * value) :=
  filter (λ kv, is_Some (node_addr h kv.2)) items.

(** The attribute [name], where an object has it, holds no graph node. *)
Definition obj_plain_attribute (h : heap) (name : string) (o : obj) : Prop :=
  match o with
  | ObjectInstance _ vars =>
      match vars !! name with
      | Some v => node_addr h v = None
      | None => True
      end
  | VariableInstance _ _ => True
  end.

Definition plain_attribute (h : heap) (name : string) : Prop :=
  map_Forall (λ _ o, obj_plain_attribute h name o) h.

Global Instance obj_plain_attribute_dec h name o :
  Decision (obj_plain_attribute h name o).
Proof.
  destruct o as [cls vars|]; simpl; [|apply _].
  destruct (vars !! name); apply _.
Defined.

Global Instance plain_attribute_dec h name : Decision (plain_attribute h name).
Proof. unfold plain_attribute. apply _. Defined.

(** Keyword attributes that neither pass a graph node nor replace one. *)
Definition plain_attributes (h : heap) (attributes : kwargs) : Prop :=
  Forall (λ kv, node_addr h kv.2 = None ∧ plain_attribute h kv.1) attributes.

Global Instance plain_attributes_dec h attributes :
  Decision (plain_attributes h attributes).
Proof. unfold plain_attributes. apply _. Defined.

(** [Module.__treescope_repr__]: the [children] dictionary it hands to the
    renderer as the attributes of the object, built from [vars(self)] by
    the loop that skips the names starting with an underscore. *)
Definition treescope_children (vars : gmap string value)
  : gmap string value :=
  foldl (λ children '(name, v),
           if String.prefix "_" name then children
           else <[name := v]> children)
        ∅ (map_to_list vars).

(** * Properties *)

(** ** [first_from] *)

Lemma first_from_Ok {A} (args : list (option A)) error_msg a :
  first_from args error_msg = Ok a ↔
  ∃ pre post, args = pre ++ Some a :: post ∧ Forall (λ x, x = None) pre.
Proof.
  induction args as [|[b|] args IH]; simpl.
  - split; [done|]. intros (pre & post & Heq & _). by destruct pre.
  - split.
    + intros [= ->]. by exists [], args.
    + intros (pre & post & Heq & Hpre). destruct pre as [|p pre]; simpl in *.
      * by inversion Heq.
      * inversion Heq; subst. by inversion Hpre.
  - rewrite IH. split.
    + intros (pre & post & -> & Hpre). exists (None :: pre), post.
      split; [done|]. by constructor.
    + intros (pre & post & Heq & Hpre). destruct pre as [|p pre]; simpl in *.
      * done.
      * inversion Heq; subst. exists pre, post. split; [done|].
        by inversion Hpre.
Qed.

Lemma first_from_Raise {A} (args : list (option A)) error_msg e :
  first_from args error_msg = Raise e ↔
  e = ValueError (Msg error_msg) ∧ Forall (λ x, x = None) args.
Proof.
  induction args as [|[b|] args IH]; simpl.
  - split; [by intros [= <-]|]. by intros [-> _].
  - split; [done|]. intros [_ Hall]. by inversion Hall.
  - rewrite IH. split; intros [-> Hall]; split; try done.
    + by constructor.
    + by inversion Hall.
Qed.

(** C10: [first_from] returns the first argument, in positional order, that
    is not [None]; it raises, and then a [ValueError] carrying the given
    message, exactly when every argument is [None], the empty argument list
    included. *)
Theorem first_from_spec {A} (args : list (option A)) (error_msg : string) :
  (∀ a, first_from args error_msg = Ok a ↔
        ∃ pre post, args = pre ++ Some a :: post ∧ Forall (λ x, x = None) pre) ∧
  (∀ e, first_from args error_msg = Raise e ↔
        e = ValueError (Msg error_msg) ∧ Forall (λ x, x = None) args) ∧
  first_from (@nil (option A)) error_msg = Raise (ValueError (Msg error_msg)).
Proof.
  split; [|split]; [intros a; apply first_from_Ok
                   |intros e; apply first_from_Raise|done].
Qed.

(** ** Attribute access on the store *)

Lemma lookup_setattr_ne o o' name v (h : heap) :
  o ≠ o' → setattr o name v h !! o' = h !! o'.
Proof.
  intros Hne. unfold setattr.
  destruct (h !! o) as [[cls vars|]|] eqn:Ho; try done.
  by rewrite lookup_insert_ne.
Qed.

Lemma lookup_setattr_eq o name v (h : heap) cls vars :
  h !! o = Some (ObjectInstance cls vars) →
  setattr o name v h !! o = Some (ObjectInstance cls (<[name := v]> vars)).
Proof. intros Ho. unfold setattr. rewrite Ho. apply lookup_insert_eq. Qed.

Lemma lookup_setattr_Variable o name v (h : heap) a ty raw :
  h !! a = Some (VariableInstance ty raw) →
  setattr o name v h !! a = Some (VariableInstance ty raw).
Proof.
  intros Ha. destruct (decide (o = a)) as [->|Hne].
  - unfold setattr. by rewrite Ha.
  - by rewrite lookup_setattr_ne.
Qed.

Lemma dom_setattr o name v (h : heap) : dom (setattr o name v h) = dom h.
Proof.
  unfold setattr. destruct (h !! o) as [[cls vars|]|] eqn:Ho; try done.
  rewrite dom_insert_L. apply elem_of_dom_2 in Ho. set_solver.
Qed.

Lemma getattr_setattr_eq o name v (h : heap) cls vars :
  h !! o = Some (ObjectInstance cls vars) →
  getattr (setattr o name v h) o name = Some v.
Proof.
  intros Ho. unfold getattr. erewrite lookup_setattr_eq; [|exact Ho].
  by rewrite lookup_insert_eq.
Qed.

Lemma getattr_setattr_ne o name name' v (h : heap) :
  name ≠ name' → getattr (setattr o name v h) o name' = getattr h o name'.
Proof.
  intros Hne. unfold getattr at 2.
  destruct (h !! o) as [[cls vars|ty raw]|] eqn:Ho.
  - unfold getattr. erewrite lookup_setattr_eq; [|exact Ho].
    by rewrite lookup_insert_ne.
  - unfold getattr, setattr. by rewrite Ho, Ho.
  - unfold getattr, setattr. by rewrite Ho, Ho.
Qed.

Lemma getattr_setattr_other o o' name name' v (h : heap) :
  o ≠ o' → getattr (setattr o name v h) o' name' = getattr h o' name'.
Proof. intros Hne. unfold getattr. by rewrite lookup_setattr_ne. Qed.

Lemma getattr_insert_other (h : heap) a x o name :
  a ≠ o → getattr (<[a := x]> h) o name = getattr h o name.
Proof. intros Hne. unfold getattr. by rewrite lookup_insert_ne. Qed.

Lemma hasattr_true h o name : hasattr h o name = true ↔ is_Some (getattr h o name).
Proof. unfold hasattr. apply bool_decide_eq_true. Qed.

Lemma hasattr_false h o name : hasattr h o name = false ↔ getattr h o name = None.
Proof.
  unfold hasattr. rewrite bool_decide_eq_false, <- eq_None_not_Some. done.
Qed.

(** ** [sow] *)

Lemma sow_first h m cls vars T name v :
  h !! m = Some (ObjectInstance cls vars) →
  hasattr h m name = false →
  ∃ h1 a,
    sow m T name v tuple_reduce tuple_init h = (Ok tt, h1) ∧
    getattr h1 m name = Some (VRef a) ∧
    h1 !! a = Some (VariableInstance T (VTuple [v])) ∧
    (∃ vars1, h1 !! m = Some (ObjectInstance cls vars1)).
Proof.
  intros Hm Hno. apply hasattr_false in Hno.
  unfold sow. rewrite Hno. simpl.
  set (a := fresh (dom h)).
  assert (a ∉ dom h) as Hfresh by apply is_fresh.
  assert (a ≠ m) as Hne.
  { intros ->. apply Hfresh. by apply elem_of_dom_2 in Hm. }
  assert (<[a:=VariableInstance T (VTuple [v])]> h !! m
          = Some (ObjectInstance cls vars)) as Hm'.
  { by rewrite lookup_insert_ne. }
  eexists _, a. split; [done|]. split; [|split].
  - by eapply getattr_setattr_eq.
  - rewrite lookup_setattr_ne by done. apply lookup_insert_eq.
  - eexists. by eapply lookup_setattr_eq.
Qed.

Lemma sow_next h m cls vars T name a l v :
  h !! m = Some (ObjectInstance cls vars) →
  getattr h m name = Some (VRef a) →
  h !! a = Some (VariableInstance T (VTuple l)) →
  ∃ h',
    sow m T name v tuple_reduce tuple_init h = (Ok tt, h') ∧
    getattr h' m name = Some (VRef a) ∧
    h' !! a = Some (VariableInstance T (VTuple (l ++ [v]))) ∧
    h' !! m = Some (ObjectInstance cls vars).
Proof.
  intros Hm Hget Ha.
  assert (a ≠ m) as Hne by (intros ->; congruence).
  unfold sow. rewrite Hget. simpl. rewrite Ha.
  rewrite String.eqb_refl. simpl.
  eexists. split; [done|]. split; [|split].
  - by rewrite getattr_insert_other.
  - apply lookup_insert_eq.
  - by rewrite lookup_insert_ne.
Qed.

Lemma sow_each_next vs : ∀ h m cls vars T name a l,
  h !! m = Some (ObjectInstance cls vars) →
  getattr h m name = Some (VRef a) →
  h !! a = Some (VariableInstance T (VTuple l)) →
  ∃ h',
    sow_each m T name vs h = (Ok tt, h') ∧
    getattr h' m name = Some (VRef a) ∧
    h' !! a = Some (VariableInstance T (VTuple (l ++ vs))).
Proof.
  induction vs as [|v vs IH]; intros h m cls vars T name a l Hm Hget Ha.
  - exists h. by rewrite app_nil_r.
  - destruct (sow_next _ _ _ _ _ _ _ _ v Hm Hget Ha)
      as (h1 & Hsow & Hget1 & Ha1 & Hm1).
    destruct (IH _ _ _ _ _ _ _ _ Hm1 Hget1 Ha1) as (h' & Heach & Hget' & Ha').
    exists h'. simpl. rewrite Hsow. rewrite <- app_assoc in Ha'. done.
Qed.

(** C2: on a module [m] that has no attribute [name] yet, the first
    [m.sow(T, name, v1)] with the default [reduce_fn] and [init_fn] creates
    the attribute as a [Variable] of type [T] holding
    [reduce_fn(init_fn(), v1) = (v1,)]; every later call appends its value to
    the tuple held by that same [Variable]; so after the calls for
    [v1, ..., vk] the attribute holds a [Variable] of exactly type [T] whose
    value is [(v1, ..., vk)]. *)
Theorem sow_collects_tuple h m cls vars T name v1 vs :
  h !! m = Some (ObjectInstance cls vars) →
  hasattr h m name = false →
  (∃ h1 a,
     sow m T name v1 tuple_reduce tuple_init h = (Ok tt, h1) ∧
     tuple_reduce (tuple_init tt) v1 = Ok (VTuple [v1]) ∧
     getattr h1 m name = Some (VRef a) ∧
     h1 !! a = Some (VariableInstance T (VTuple [v1]))) ∧
  (∀ hi clsi varsi a l v,
     hi !! m = Some (ObjectInstance clsi varsi) →
     getattr hi m name = Some (VRef a) →
     hi !! a = Some (VariableInstance T (VTuple l)) →
     ∃ hj,
       sow m T name v tuple_reduce tuple_init hi = (Ok tt, hj) ∧
       getattr hj m name = Some (VRef a) ∧
       hj !! a = Some (VariableInstance T (VTuple (l ++ [v])))) ∧
  (∃ hk a,
     sow_each m T name (v1 :: vs) h = (Ok tt, hk) ∧
     getattr hk m name = Some (VRef a) ∧
     as_Variable hk (VRef a) = Some (a, T, VTuple (v1 :: vs))).
Proof.
  intros Hm Hno.
  destruct (sow_first _ _ _ _ T _ v1 Hm Hno)
    as (h1 & a & Hsow & Hget & Ha & vars1 & Hm1).
  split; [|split].
  - by exists h1, a.
  - intros hi clsi varsi ai l v Hmi Hgeti Hai.
    destruct (sow_next _ _ _ _ _ _ _ _ v Hmi Hgeti Hai) as (hj & ? & ? & ? & _).
    by exists hj.
  - destruct (sow_each_next vs _ _ _ _ _ _ _ _ Hm1 Hget Ha)
      as (hk & Heach & Hgetk & Hak).
    exists hk, a. simpl. rewrite Hsow. split; [done|]. split; [done|].
    simpl in Hak. by rewrite Hak.
Qed.

Lemma sow_collects_tuple_witness :
  ∃ hk a,
    sow_each 1%positive "Intermediate" "i" [VInt 1; VInt 2] block_heap
      = (Ok tt, hk) ∧
    getattr hk 1%positive "i" = Some (VRef a) ∧
    as_Variable hk (VRef a)
      = Some (a, "Intermediate", VTuple [VInt 1; VInt 2]).
Proof.
  refine (proj2 (proj2 (sow_collects_tuple block_heap 1%positive
            (module_class "Block")
            (list_to_map [("linear", VRef 2%positive);
                          ("submodule", VRef 3%positive);
                          ("dropout", VRef 6%positive);
                          ("batch_norm", VRef 7%positive)])
            "Intermediate" "i" (VInt 1) [VInt 2] _ _)));
    vm_compute; reflexivity.
Defined.

(** C9: when the module already has an attribute [name] that is not a
    [Variable], or is a [Variable] whose exact type is not [variable_type],
    [sow] raises a [ValueError], whatever [reduce_fn] and [init_fn] are, and
    leaves the store as it found it. *)
Theorem sow_rejects_mismatch h m T name v reduce_fn init_fn variable :
  getattr h m name = Some variable →
  (as_Variable h variable = None ∨
   ∃ a ty raw, as_Variable h variable = Some (a, ty, raw) ∧ ty ≠ T) →
  ∃ msg, sow m T name v reduce_fn init_fn h = (Raise (ValueError msg), h).
Proof.
  intros Hget Hbad. unfold sow. rewrite Hget.
  destruct Hbad as [->|(a & ty & raw & -> & Hty)].
  - by eexists.
  - apply String.eqb_neq in Hty. rewrite Hty. simpl. by eexists.
Qed.

Lemma sow_rejects_mismatch_witness :
  ∃ msg,
    sow 2%positive "Intermediate" "kernel" (VInt 1) tuple_reduce tuple_init
      block_heap = (Raise (ValueError msg), block_heap).
Proof.
  apply (sow_rejects_mismatch block_heap 2%positive "Intermediate" "kernel"
           (VInt 1) tuple_reduce tuple_init (VRef 10%positive)).
  - vm_compute; reflexivity.
  - right. exists 10%positive, "Param", (VOther "Array").
    split; [vm_compute; reflexivity | discriminate].
Defined.

(** ** The traversal *)

Lemma node_dict_Some h v a items :
  node_dict h v = Some (a, items) →
  v = VRef a ∧
  ∃ cls vars, h !! a = Some (ObjectInstance cls vars) ∧
              ∀ key c, (key, c) ∈ items ↔ vars !! key = Some c.
Proof.
  unfold node_dict. destruct v as [| | | | | |a']; try done.
  destruct (h !! a') as [[cls vars|]|] eqn:Ha; try done.
  intros [= <- <-]. split; [done|]. exists cls, vars. split; [done|].
  intros key c. rewrite merge_sort_Permutation. apply elem_of_map_to_list.
Qed.

Lemma node_addr_Some h v a :
  node_addr h v = Some a ↔
  v = VRef a ∧ ∃ cls vars, h !! a = Some (ObjectInstance cls vars).
Proof.
  unfold node_addr, node_dict. split.
  - destruct v as [| | | | | |a']; try done. simpl.
    destruct (h !! a') as [[cls vars|]|] eqn:Ha; try done.
    intros [= <-]. eauto.
  - intros [-> (cls & vars & Ha)]. by rewrite Ha.
Qed.

Lemma node_addr_node_dict h v a items :
  node_dict h v = Some (a, items) → node_addr h v = Some a.
Proof. unfold node_addr. by intros ->. Qed.

Lemma yielded_nodes_app h out1 out2 :
  yielded_nodes h (out1 ++ out2) = yielded_nodes h out1 ++ yielded_nodes h out2.
Proof. apply omap_app. Qed.

Lemma children_visited_refl h V : children_visited h V V.
Proof. intros x cls vars key c y Hx HxV. done. Qed.

Lemma yields_new_nodes_nil h V : yields_new_nodes h V V [].
Proof.
  split; [constructor|]. intros b. simpl. rewrite elem_of_nil. tauto.
Qed.

Lemma iter_items_ok h rec items : ∀ V path out V',
  (∀ v V p out V', rec v V p = Some (out, V') → visit_ok h v V p out V') →
  iter_items rec items V path = Some (out, V') →
  items_ok h items V path out V'.
Proof.
  induction items as [|[key c] items IH]; intros V path out V' Hrec Hrun;
    simpl in Hrun.
  - injection Hrun as <- <-.
    split; [done|]. split; [|split; [|split]].
    + intros ??? Hin. by apply elem_of_nil in Hin.
    + apply children_visited_refl.
    + apply yields_new_nodes_nil.
    + intros ?? Hin. by apply elem_of_nil in Hin.
  - destruct (rec c V (path ++ [key])) as [[out1 V1]|] eqn:Hc; [|done].
    destruct (iter_items rec items V1 path) as [[out2 V2]|] eqn:Hrest; [|done].
    injection Hrun as <- <-.
    apply Hrec in Hc as (Hsub1 & Hself1 & Hcl1 & [Hnd1 Hy1] & Hp1).
    apply IH in Hrest as (Hsub2 & Hit2 & Hcl2 & [Hnd2 Hy2] & Hp2); [|done].
    split; [set_solver|]. split; [|split; [|split; [split|]]].
    + intros key' c' y [[= -> ->]|Hin]%elem_of_cons Hy.
      * apply Hsub2. by apply Hself1.
      * by eapply Hit2.
    + intros x cls vars key' c' y Hx HxV Hhx Hk Hy.
      destruct (decide (x ∈ V1)) as [Hx1|Hx1].
      * apply Hsub2. by eapply Hcl1.
      * by eapply Hcl2.
    + rewrite yielded_nodes_app. apply NoDup_app. split; [done|].
      split; [|done]. intros b Hb1 Hb2. apply Hy1 in Hb1. apply Hy2 in Hb2.
      tauto.
    + intros b. rewrite yielded_nodes_app, elem_of_app, Hy1, Hy2.
      destruct (decide (b ∈ V1)); set_solver.
    + intros p v [Hin|Hin]%elem_of_app.
      * destruct (Hp1 _ _ Hin) as (q & -> & Hq).
        exists key, c, q. split; [left|]. by rewrite <- app_assoc.
      * destruct (Hp2 _ _ Hin) as (key' & c' & q & Hin' & -> & Hq).
        exists key', c', q. split; [by right|done].
Qed.

Lemma _iter_graph_ok h fuel : ∀ node V path out V',
  _iter_graph fuel h node V path = Some (out, V') →
  visit_ok h node V path out V'.
Proof.
  induction fuel as [|fuel IH]; intros node V path out V' Hrun; [done|].
  simpl in Hrun.
  destruct (node_dict h node) as [[a items]|] eqn:Hnd.
  - pose proof (node_addr_node_dict _ _ _ _ Hnd) as Haddr.
    destruct (node_dict_Some _ _ _ _ Hnd) as (-> & cls & vars & Ha & Hitems).
    destruct (decide (a ∈ V)) as [HaV|HaV].
    + injection Hrun as <- <-.
      split; [done|]. split; [|split; [|split]].
      * intros a' Ha'. rewrite Haddr in Ha'. by injection Ha' as <-.
      * apply children_visited_refl.
      * apply yields_new_nodes_nil.
      * intros ?? Hin. by apply elem_of_nil in Hin.
    + destruct (iter_items _ items _ path) as [[out' V'']|] eqn:Hloop; [|done].
      injection Hrun as <- <-.
      apply (iter_items_ok h) in Hloop as (Hsub & Hit & Hcl & [Hnd' Hy] & Hp);
        [|exact IH].
      split; [set_solver|]. split; [|split; [|split; [split|]]].
      * intros a' Ha'. rewrite Haddr in Ha'. injection Ha' as <-. set_solver.
      * intros x cls' vars' key c y Hx HxV Hhx Hk Hy'.
        destruct (decide (x = a)) as [->|Hne].
        -- rewrite Ha in Hhx. injection Hhx as <- <-.
           eapply Hit; [|done]. by apply Hitems.
        -- eapply Hcl; [done| |done..]. set_solver.
      * rewrite yielded_nodes_app. simpl. rewrite Haddr. simpl.
        apply NoDup_app. split; [done|]. split; [|apply NoDup_singleton].
        intros b Hb ->%list_elem_of_singleton. apply Hy in Hb. set_solver.
      * intros b. rewrite yielded_nodes_app, elem_of_app, Hy. simpl.
        rewrite Haddr. simpl. rewrite list_elem_of_singleton.
        destruct (decide (b = a)) as [->|]; set_solver.
      * intros p v [Hin|Hin]%elem_of_app.
        -- destruct (Hp _ _ Hin) as (key & c & q & Hkc & -> & Hq).
           exists (key :: q). split; [done|]. simpl. rewrite Ha.
           apply Hitems in Hkc. by rewrite Hkc.
        -- apply list_elem_of_singleton in Hin as [= -> ->].
           exists []. by rewrite app_nil_r.
  - injection Hrun as <- <-.
    assert (node_addr h node = None) as Hnone
      by (unfold node_addr; by rewrite Hnd).
    split; [done|]. split; [|split; [|split; [split|]]].
    + intros a. by rewrite Hnone.
    + apply children_visited_refl.
    + simpl. rewrite Hnone. constructor.
    + intros b. simpl. rewrite Hnone, elem_of_nil. tauto.
    + intros p v [= -> ->]%list_elem_of_singleton.
      exists []. by rewrite app_nil_r.
Qed.

Lemma iter_items_total h rec items path (V0 : gset addr) :
  (∀ v V p, V0 ⊆ V → is_Some (rec v V p)) →
  (∀ v V p out V', rec v V p = Some (out, V') → visit_ok h v V p out V') →
  ∀ V, V0 ⊆ V → is_Some (iter_items rec items V path).
Proof.
  intros Htot Hok. induction items as [|[key c] items IH]; intros V HV; simpl.
  - by eexists.
  - destruct (Htot c V (path ++ [key]) HV) as [[out1 V1] Hc]. rewrite Hc.
    apply Hok in Hc as (Hsub & _).
    destruct (IH V1) as [[out2 V2] Hrest]; [set_solver|].
    rewrite Hrest. by eexists.
Qed.

Lemma _iter_graph_total h fuel : ∀ node V path,
  size (dom h ∖ V) < fuel → is_Some (_iter_graph fuel h node V path).
Proof.
  induction fuel as [|fuel IH]; intros node V path Hfuel; [lia|].
  simpl. destruct (node_dict h node) as [[a items]|] eqn:Hnd; [|by eexists].
  destruct (node_dict_Some _ _ _ _ Hnd) as (-> & cls & vars & Ha & _).
  destruct (decide (a ∈ V)) as [HaV|HaV]; [by eexists|].
  assert (size (dom h ∖ ({[a]} ∪ V)) < size (dom h ∖ V)) as Hless.
  { apply subset_size. apply elem_of_dom_2 in Ha. set_solver. }
  destruct (iter_items_total h (_iter_graph fuel h) items path ({[a]} ∪ V))
    with (V := {[a]} ∪ V) as [[out V'] Hloop]; [| |done|].
  - intros v V1 p HV1. apply IH.
    assert (size (dom h ∖ V1) ≤ size (dom h ∖ ({[a]} ∪ V)))%nat; [|lia].
    apply subseteq_size. set_solver.
  - apply _iter_graph_ok.
  - rewrite Hloop. by eexists.
Qed.

(** The traversal from any value never runs out of fuel. *)
Lemma iter_graph_run h node :
  ∃ out V, _iter_graph (S (size h)) h node ∅ [] = Some (out, V) ∧
           iter_graph h node = out.
Proof.
  destruct (_iter_graph_total h (S (size h)) node ∅ []) as [[out V] Hrun].
  - rewrite difference_empty_L, size_dom. lia.
  - exists out, V. split; [done|]. unfold iter_graph. by rewrite Hrun.
Qed.

Lemma as_Module_Some h v a :
  as_Module h v = Some a ↔ v = VRef a ∧ is_Module h (VRef a) = true.
Proof.
  unfold as_Module. destruct v as [| | | | | |a']; try (split; [done|]; by intros [? _]).
  destruct (is_Module h (VRef a')) eqn:Hm; split.
  - by intros [= <-].
  - by intros [[= <-] _].
  - done.
  - intros [[= <-] ?]. congruence.
Qed.

Lemma as_Module_node_addr h v a :
  as_Module h v = Some a → node_addr h v = Some a.
Proof.
  intros [-> Hm]%as_Module_Some. apply node_addr_Some. split; [done|].
  simpl in Hm. destruct (h !! a) as [[cls vars|]|]; try done. eauto.
Qed.

Lemma elem_of_iter_modules h self path a :
  (path, a) ∈ iter_modules h self ↔
  (path, VRef a) ∈ iter_graph h (VRef self) ∧ is_Module h (VRef a) = true.
Proof.
  unfold iter_modules. rewrite list_elem_of_omap. split.
  - intros ([p v] & Hin & Hf). destruct (as_Module h v) as [a'|] eqn:Hv; [|done].
    injection Hf as <- <-. apply as_Module_Some in Hv as [-> Hm]. done.
  - intros [Hin Hm]. exists (path, VRef a). split; [done|].
    assert (as_Module h (VRef a) = Some a) as -> by by apply as_Module_Some.
    done.
Qed.

(** Picking the modules out of the yielded values keeps the order and drops
    the rest, so their identities form a sublist of the yielded nodes. *)
Lemma iter_modules_sublist h (out : yields) :
  (omap (λ '(path, v), (λ a, (path, a)) <$> as_Module h v) out).*2
    `sublist_of` yielded_nodes h out.
Proof.
  induction out as [|[p v] out IH]; simpl; [constructor|].
  destruct (as_Module h v) as [a|] eqn:Hv; simpl.
  - rewrite (as_Module_node_addr _ _ _ Hv). by constructor.
  - destruct (node_addr h v); [by constructor|done].
Qed.

Lemma resolve_app h v p q w :
  resolve h v p = Some w → resolve h v (p ++ q) = resolve h w q.
Proof.
  revert v. induction p as [|key p IH]; intros v; simpl.
  - by intros [= ->].
  - destruct v as [| | | | | |a]; try done.
    destruct (h !! a) as [[cls vars|]|]; try done.
    destruct (vars !! key) as [v'|]; [|done]. apply IH.
Qed.

(** A set of nodes that holds the node children of each of its members
    holds whatever node a path from a member leads to. *)
Lemma closed_resolve h (V' : gset addr) :
  children_visited h ∅ V' →
  ∀ path x y, x ∈ V' → resolve h (VRef x) path = Some (VRef y) →
              is_Some (node_addr h (VRef y)) → y ∈ V'.
Proof.
  intros Hcl path. induction path as [|key path IH]; intros x y Hx Hres Hy.
  - simpl in Hres. by injection Hres as <-.
  - simpl in Hres.
    destruct (h !! x) as [[cls vars|]|] eqn:Hhx; try done.
    destruct (vars !! key) as [c|] eqn:Hk; [|done].
    assert (∃ z, node_addr h c = Some z) as [z Hz].
    { destruct path as [|key' path'].
      - simpl in Hres. injection Hres as ->. done.
      - simpl in Hres. destruct c as [| | | | | |z]; try done.
        destruct (h !! z) as [[cls' vars'|]|] eqn:Hhz; try done.
        exists z. apply node_addr_Some. eauto. }
    pose proof Hz as [-> _]%node_addr_Some.
    eapply IH; [|done..]. eapply Hcl; [done|set_solver|done..].
Qed.

Lemma _iter_graph_root h fuel node V path out V' a items :
  node_dict h node = Some (a, items) → a ∉ V →
  _iter_graph fuel h node V path = Some (out, V') → (path, node) ∈ out.
Proof.
  intros Hnd HaV. destruct fuel as [|fuel]; [done|]. simpl. rewrite Hnd.
  destruct (decide (a ∈ V)); [done|].
  destruct (iter_items _ _ _ _) as [[out' V'']|]; [|done].
  intros [= <- <-]. apply elem_of_app. right. by left.
Qed.

Lemma NoDup_snd_unique {A B} (l : list (A * B)) p q b :
  NoDup l.*2 → (p, b) ∈ l → (q, b) ∈ l → p = q.
Proof.
  induction l as [|[p' b'] l IH]; simpl; intros Hnd Hp Hq.
  - by apply elem_of_nil in Hp.
  - apply NoDup_cons in Hnd as [Hb' Hnd].
    assert (∀ r, (r, b') ∈ l → False) as Hfresh.
    { intros r Hr. apply Hb'. apply list_elem_of_fmap. by exists (r, b'). }
    apply elem_of_cons in Hp as [Hp|Hp]; apply elem_of_cons in Hq as [Hq|Hq].
    + congruence.
    + injection Hp as -> ->. exfalso. eauto.
    + injection Hq as -> ->. exfalso. eauto.
    + by apply IH.
Qed.

Lemma is_Module_node h a :
  is_Module h (VRef a) = true → is_Some (node_dict h (VRef a)).
Proof.
  unfold is_Module, node_dict.
  destruct (h !! a) as [[cls vars|]|]; first [done | by eexists].
Qed.

Lemma iter_modules_NoDup h self : NoDup (iter_modules h self).*2.
Proof.
  destruct (iter_graph_run h (VRef self)) as (out & V & Hrun & Hout).
  apply _iter_graph_ok in Hrun as (_ & _ & _ & [Hnd _] & _).
  unfold iter_modules. rewrite Hout.
  eapply sublist_NoDup; [exact Hnd|apply iter_modules_sublist].
Qed.

(** Soundness and completeness of the traversal: what is yielded lies at
    its path, and every [Module] at some path is yielded. *)
Lemma iter_modules_paths h self :
  is_Module h (VRef self) = true →
  (∀ path a, (path, a) ∈ iter_modules h self →
     resolve h (VRef self) path = Some (VRef a) ∧
     is_Module h (VRef a) = true) ∧
  (∀ path a, resolve h (VRef self) path = Some (VRef a) →
     is_Module h (VRef a) = true →
     ∃ path', (path', a) ∈ iter_modules h self).
Proof.
  intros Hself.
  destruct (iter_graph_run h (VRef self)) as (out & V & Hrun & Hout).
  destruct (is_Module_node _ _ Hself) as [[a0 items] Hnd].
  pose proof (node_dict_Some _ _ _ _ Hnd) as ([= <-] & _).
  pose proof (_iter_graph_ok _ _ _ _ _ _ _ Hrun)
    as (_ & Hin & Hcl & [_ Hy] & Hp).
  split.
  - intros path a [Ha Hm]%elem_of_iter_modules. rewrite Hout in Ha.
    destruct (Hp _ _ Ha) as (q & -> & Hq). done.
  - intros path a Hres Hm.
    assert (a ∈ V) as HaV.
    { eapply closed_resolve; [done| |done|].
      - apply Hin. by eapply node_addr_node_dict.
      - destruct (is_Module_node _ _ Hm) as [[a1 its] Hnd1].
        exists a1. by eapply node_addr_node_dict. }
    assert (a ∈ yielded_nodes h out) as Hyield by (apply Hy; set_solver).
    apply list_elem_of_omap in Hyield as ([p v] & Hpv & Hv).
    apply node_addr_Some in Hv as [-> _].
    exists p. apply elem_of_iter_modules. by rewrite Hout.
Qed.

(** C5: from a module [self], [iter_modules] yields the root with the empty
    path (and under no other path); everything it yields is a [Module]
    paired with a path that leads to it from the root; every [Module] that
    some attribute path from the root leads to is yielded; and no [Module]
    is yielded twice. *)
Theorem iter_modules_reachable h self :
  is_Module h (VRef self) = true →
  ([], self) ∈ iter_modules h self ∧
  (∀ path, (path, self) ∈ iter_modules h self → path = []) ∧
  (∀ path a, (path, a) ∈ iter_modules h self →
     resolve h (VRef self) path = Some (VRef a) ∧
     is_Module h (VRef a) = true) ∧
  (∀ path a, resolve h (VRef self) path = Some (VRef a) →
     is_Module h (VRef a) = true →
     ∃ path', (path', a) ∈ iter_modules h self) ∧
  NoDup (iter_modules h self).*2.
Proof.
  intros Hself.
  destruct (iter_graph_run h (VRef self)) as (out & V & Hrun & Hout).
  destruct (is_Module_node _ _ Hself) as [[a0 items] Hnd].
  pose proof (node_dict_Some _ _ _ _ Hnd) as ([= <-] & _).
  pose proof (_iter_graph_root _ _ _ _ _ _ _ _ _ Hnd
                (not_elem_of_empty (C:=gset addr) self) Hrun) as Hroot.
  assert (([], self) ∈ iter_modules h self) as Hroot'.
  { apply elem_of_iter_modules. by rewrite Hout. }
  destruct (iter_modules_paths h self Hself) as [Hsound Hcomplete].
  split; [done|]. split; [|split; [done|split; [done|]]].
  - intros path Hpath.
    by eapply (NoDup_snd_unique _ _ _ _ (iter_modules_NoDup h self)).
  - apply iter_modules_NoDup.
Qed.

Lemma iter_modules_reachable_witness :
  ([], 1%positive) ∈ iter_modules block_heap 1%positive.
Proof.
  apply (iter_modules_reachable block_heap 1%positive).
  vm_compute; reflexivity.
Defined.

(** ** [iter_children] *)

Lemma elem_of_iter_children h m key child :
  (key, child) ∈ iter_children h m ↔
  ∃ cls vars, h !! m = Some (ObjectInstance cls vars) ∧
              vars !! key = Some (VRef child) ∧
              is_Module h (VRef child) = true.
Proof.
  unfold iter_children.
  destruct (node_dict h (VRef m)) as [[a items]|] eqn:Hnd.
  - destruct (node_dict_Some _ _ _ _ Hnd) as ([= <-] & cls & vars & Hm & Hitems).
    rewrite list_elem_of_omap. split.
    + intros ([k v] & Hin & Hf).
      destruct (as_Module h v) as [a'|] eqn:Hv; [|done].
      injection Hf as <- <-. apply as_Module_Some in Hv as [-> Hmod].
      exists cls, vars. split; [done|]. split; [by apply Hitems|done].
    + intros (cls' & vars' & Hm' & Hk & Hmod).
      rewrite Hm in Hm'. injection Hm' as <- <-.
      exists (key, VRef child). split; [by apply Hitems|].
      assert (as_Module h (VRef child) = Some child) as ->
        by by apply as_Module_Some.
      done.
  - split; [by intros ?%elem_of_nil|].
    intros (cls & vars & Hm & _). unfold node_dict in Hnd. by rewrite Hm in Hnd.
Qed.

Lemma resolve_cons_items h a key path w :
  resolve h (VRef a) (key :: path) = Some w →
  ∃ items c, node_dict h (VRef a) = Some (a, items) ∧
             (key, c) ∈ items ∧ resolve h c path = Some w.
Proof.
  intros Hres. simpl in Hres.
  destruct (h !! a) as [[cls vars|]|] eqn:Ha; try done.
  destruct (vars !! key) as [c|] eqn:Hk; [|done].
  destruct (node_dict h (VRef a)) as [[a' items]|] eqn:Hnd.
  - destruct (node_dict_Some _ _ _ _ Hnd)
      as ([= <-] & cls' & vars' & Ha' & Hitems).
    rewrite Ha in Ha'. injection Ha' as <- <-.
    exists items, c. split; [done|]. split; [|done]. by apply Hitems.
  - unfold node_dict in Hnd. by rewrite Ha in Hnd.
Qed.

(** The claim of C6 as it is written fails when a child is shared: the
    second attribute holding the shared [Linear] is yielded by
    [iter_children], while [iter_modules] yields that [Linear] once, under
    the first path only. *)
Lemma iter_children_shared_counterexample :
  ("b", 2%positive) ∈ iter_children shared_heap 1%positive ∧
  (["b"], 2%positive) ∉ iter_modules shared_heap 1%positive.
Proof.
  split.
  - apply (bool_decide_unpack _). vm_compute. exact I.
  - apply (bool_decide_unpack _). vm_compute. exact I.
Qed.

(** C6 (amended): [iter_children] yields exactly the pairs [(key, child)]
    where [child] is a [Module] held directly by the attribute [key] of [m]
    (one level, no recursion).  Every child it yields is also yielded by
    [iter_modules], under some path; it is yielded as [((key,), child)], and
    is not [m] itself, when [(key,)] is the only attribute path leading from
    [m] to it. *)
Theorem iter_children_direct h m :
  (∀ key child,
     (key, child) ∈ iter_children h m ↔
     ∃ cls vars, h !! m = Some (ObjectInstance cls vars) ∧
                 vars !! key = Some (VRef child) ∧
                 is_Module h (VRef child) = true) ∧
  (is_Module h (VRef m) = true →
   ∀ key child, (key, child) ∈ iter_children h m →
     (∃ path, (path, child) ∈ iter_modules h m) ∧
     ((∀ path, resolve h (VRef m) path = Some (VRef child) → path = [key]) →
      ([key], child) ∈ iter_modules h m ∧ child ≠ m)).
Proof.
  split; [intros; apply elem_of_iter_children|].
  intros Hm key child (cls & vars & Hhm & Hk & Hmod)%elem_of_iter_children.
  destruct (iter_modules_paths h m Hm) as [Hsound Hcomplete].
  assert (resolve h (VRef m) [key] = Some (VRef child)) as Hres.
  { simpl. by rewrite Hhm, Hk. }
  destruct (Hcomplete _ _ Hres Hmod) as [path Hpath].
  split; [by exists path|]. intros Huniq. split.
  - destruct (Hsound _ _ Hpath) as [Hres' _].
    by rewrite <- (Huniq _ Hres').
  - intros ->. by specialize (Huniq [] eq_refl).
Qed.

(** On a concrete store, the paths leading to a value are found by walking
    the node dictionaries. *)
Ltac items_cases Hin :=
  repeat (apply elem_of_cons in Hin as [Hin|Hin]; [injection Hin as -> ->|]);
  try (by apply elem_of_nil in Hin).

Ltac resolve_inv Hres :=
  let key := fresh "key" in
  let items := fresh "items" in
  let c := fresh "c" in
  let Hnd := fresh "Hnd" in
  let Hin := fresh "Hin" in
  match type of Hres with
  | resolve _ _ ?path = Some _ =>
      destruct path as [|key path];
      [ simpl in Hres; try discriminate Hres
      | first
          [ discriminate Hres
          | apply resolve_cons_items in Hres as (items & c & Hnd & Hin & Hres);
            vm_compute in Hnd;
            first [ discriminate Hnd
                  | injection Hnd as <-; items_cases Hin; resolve_inv Hres ] ] ]
  end.

Lemma iter_children_direct_witness :
  (["dropout"], 6%positive) ∈ iter_modules block_heap 1%positive ∧
  6%positive ≠ 1%positive.
Proof.
  refine (proj2 (proj2 (iter_children_direct block_heap 1%positive) _
                   "dropout" 6%positive _) _).
  - vm_compute; reflexivity.
  - apply (bool_decide_unpack _). vm_compute. exact I.
  - intros path Hres. resolve_inv Hres; reflexivity.
Defined.

(** ** [set_attributes] *)

Lemma getattr_obj (h : heap) a name :
  getattr h a name = h !! a ≫= λ o, obj_getattr o name.
Proof. unfold getattr. by destruct (h !! a) as [[cls vars|]|]. Qed.

Lemma hasattr_obj (h : heap) a o name :
  h !! a = Some o → hasattr h a name = obj_hasattr o name.
Proof. intros Ha. unfold hasattr, obj_hasattr. by rewrite getattr_obj, Ha. Qed.

Lemma setattr_obj (h : heap) a o name v :
  h !! a = Some o → setattr a name v h = <[a := obj_setattr name v o]> h.
Proof.
  intros Ha. unfold setattr. rewrite Ha. destruct o as [cls vars|ty raw]; simpl.
  - done.
  - by rewrite insert_id.
Qed.

Lemma obj_hasattr_setattr o name v name' :
  obj_hasattr o name = true →
  obj_hasattr (obj_setattr name v o) name' = obj_hasattr o name'.
Proof.
  destruct o as [cls vars|ty raw]; [|done]. unfold obj_hasattr. simpl.
  intros Hn. destruct (decide (name = name')) as [<-|Hne].
  - rewrite lookup_insert_eq. rewrite Hn. by apply bool_decide_eq_true.
  - by rewrite lookup_insert_ne.
Qed.

Lemma obj_getattr_setattr_ne o name v name' :
  name ≠ name' → obj_getattr (obj_setattr name v o) name' = obj_getattr o name'.
Proof.
  intros Hne. destruct o as [cls vars|ty raw]; [|done]. simpl.
  by rewrite lookup_insert_ne.
Qed.

Lemma update_obj_hasattr attributes : ∀ o name,
  obj_hasattr (update_obj attributes o) name = obj_hasattr o name.
Proof.
  induction attributes as [|[n v] attributes IH]; intros o name; simpl; [done|].
  destruct (obj_hasattr o n) eqn:Hn; [|apply IH].
  rewrite IH. by apply obj_hasattr_setattr.
Qed.

Lemma update_obj_other attributes : ∀ o name,
  name ∉ attributes.*1 →
  obj_getattr (update_obj attributes o) name = obj_getattr o name.
Proof.
  induction attributes as [|[n v] attributes IH]; intros o name Hname; simpl;
    [done|].
  simpl in Hname. apply not_elem_of_cons in Hname as [Hne Hname].
  destruct (obj_hasattr o n); rewrite IH by done; [|done].
  by apply obj_getattr_setattr_ne.
Qed.

Lemma update_obj_set attributes : ∀ o name v,
  NoDup attributes.*1 → (name, v) ∈ attributes →
  obj_hasattr o name = true →
  obj_getattr (update_obj attributes o) name = Some v.
Proof.
  induction attributes as [|[n w] attributes IH]; intros o name v Hnd Hin Hhas;
    simpl.
  - by apply elem_of_nil in Hin.
  - simpl in Hnd. apply NoDup_cons in Hnd as [Hn Hnd].
    apply elem_of_cons in Hin as [Heq|Hin].
    + injection Heq as -> ->.
      rewrite Hhas. rewrite update_obj_other by done.
      destruct o as [cls vars|ty raw]; [|done]. simpl.
      by rewrite lookup_insert_eq.
    + destruct (obj_hasattr o n) eqn:Hon.
      * apply IH; [done..|]. by rewrite obj_hasattr_setattr.
      * by apply IH.
Qed.

Lemma update_obj_class attributes : ∀ cls vars,
  ∃ vars', update_obj attributes (ObjectInstance cls vars)
           = ObjectInstance cls vars'.
Proof.
  induction attributes as [|[n v] attributes IH]; intros cls vars; simpl.
  - by eexists.
  - destruct (obj_hasattr _ n); apply IH.
Qed.

Lemma update_obj_Variable attributes ty raw :
  update_obj attributes (VariableInstance ty raw) = VariableInstance ty raw.
Proof.
  induction attributes as [|[n v] attributes IH]; [done|].
  change (update_obj ((n, v) :: attributes) (VariableInstance ty raw))
    with (if obj_hasattr (VariableInstance ty raw) n
          then update_obj attributes (VariableInstance ty raw)
          else update_obj attributes (VariableInstance ty raw)).
  by destruct (obj_hasattr _ n).
Qed.

Lemma elem_of_found_names attributes o name :
  name ∈ found_names attributes o ↔
  name ∈ attributes.*1 ∧ obj_hasattr o name = true.
Proof.
  unfold found_names. rewrite elem_of_list_to_set, list_elem_of_filter. tauto.
Qed.

Lemma set_found_obj module attributes : ∀ remaining (h : heap) o,
  h !! module = Some o →
  set_found module attributes (remaining, h)
  = (remaining ∖ found_names attributes o,
     <[module := update_obj attributes o]> h).
Proof.
  induction attributes as [|[n v] attributes IH]; intros remaining h o Hm; simpl.
  - f_equal.
    + apply set_eq. intros x. rewrite elem_of_difference, elem_of_found_names.
      simpl. rewrite elem_of_nil. tauto.
    + by rewrite insert_id.
  - rewrite (hasattr_obj _ _ _ _ Hm). destruct (obj_hasattr o n) eqn:Hn.
    + rewrite (setattr_obj _ _ _ _ _ Hm).
      rewrite (IH _ _ (obj_setattr n v o)) by apply lookup_insert_eq.
      f_equal.
      * apply set_eq. intros x.
        rewrite !elem_of_difference, !elem_of_found_names, elem_of_singleton.
        simpl. rewrite elem_of_cons, obj_hasattr_setattr by done.
        destruct (decide (x = n)) as [->|]; [|tauto]. rewrite Hn. tauto.
      * by rewrite insert_insert_eq.
    + rewrite (IH _ _ o Hm). f_equal.
      apply set_eq. intros x.
      rewrite !elem_of_difference, !elem_of_found_names. simpl.
      rewrite elem_of_cons. destruct (decide (x = n)) as [->|]; [|tauto].
      rewrite Hn. intuition congruence.
Qed.

Lemma for_predicates_obj predicates path module attributes remaining
    (h : heap) o :
  h !! module = Some o →
  for_predicates predicates path module attributes (remaining, h)
  = if selected predicates path module o
    then (remaining ∖ found_names attributes o,
          <[module := update_obj attributes o]> h)
    else (remaining, h).
Proof.
  intros Hm. induction predicates as [|p predicates IH]; simpl; [done|].
  rewrite Hm. destruct (p path module o); simpl.
  - by apply set_found_obj.
  - apply IH.
Qed.

(** The loop over the yielded modules: every module is visited once, so
    what the predicates and [hasattr] see at the visit is the module as it
    was at the start. *)
Lemma for_modules_spec predicates attributes (L : list (PathParts * addr)) :
  ∀ remaining (h : heap),
  NoDup L.*2 →
  (∀ path a, (path, a) ∈ L → is_Some (h !! a)) →
  ∃ remaining' (h' : heap),
    foldl (λ st '(path, module),
             for_predicates predicates path module attributes st)
          (remaining, h) L = (remaining', h') ∧
    (∀ a, a ∉ L.*2 → h' !! a = h !! a) ∧
    (∀ path a o, (path, a) ∈ L → h !! a = Some o →
       h' !! a = Some (visit_obj predicates attributes path a o)) ∧
    (∀ n, n ∈ remaining' ↔
       n ∈ remaining ∧
       ∀ path a o, (path, a) ∈ L → h !! a = Some o →
         selected predicates path a o = true → n ∉ found_names attributes o).
Proof.
  induction L as [|[p a] L IH]; intros remaining h Hnd Hsome; simpl.
  - exists remaining, h. split; [done|]. split; [done|]. split.
    + intros ??? Hin. by apply elem_of_nil in Hin.
    + intros n. split; [|tauto]. intros Hn. split; [done|].
      intros ??? Hin. by apply elem_of_nil in Hin.
  - simpl in Hnd. apply NoDup_cons in Hnd as [HaL Hnd].
    destruct (Hsome p a) as [o Ho]; [by left|].
    rewrite (for_predicates_obj _ _ _ _ _ _ _ Ho).
    set (st1 := if selected predicates p a o then _ else _).
    assert (st1.2 !! a = Some (visit_obj predicates attributes p a o)) as Ha1.
    { unfold st1, visit_obj. destruct (selected predicates p a o); simpl;
        [apply lookup_insert_eq|done]. }
    assert (∀ b, b ≠ a → st1.2 !! b = h !! b) as Hb1.
    { intros b Hb. unfold st1. destruct (selected predicates p a o); simpl;
        [by rewrite lookup_insert_ne|done]. }
    assert (∀ n, n ∈ st1.1 ↔
              n ∈ remaining ∧
              (selected predicates p a o = true →
               n ∉ found_names attributes o)) as Hrem1.
    { intros n. unfold st1. destruct (selected predicates p a o); simpl.
      - rewrite elem_of_difference. tauto.
      - intuition congruence. }
    destruct st1 as [remaining1 h1]. simpl in *.
    destruct (IH remaining1 h1 Hnd) as (remaining' & h' & Hrun & Hout & Hin & Hrem).
    { intros path b Hb. rewrite Hb1.
      - apply (Hsome path b). by right.
      - intros ->. apply HaL. apply list_elem_of_fmap. by exists (path, a). }
    exists remaining', h'. split; [done|]. split; [|split].
    + intros b [Hba HbL]%not_elem_of_cons. rewrite Hout by done. by apply Hb1.
    + intros path b ob [Heq|Hb]%elem_of_cons Hob.
      * injection Heq as -> ->. rewrite Hout by done.
        rewrite Ho in Hob. by injection Hob as <-.
      * assert (b ≠ a) as Hba.
        { intros ->. apply HaL. apply list_elem_of_fmap. by exists (path, a). }
        apply Hin; [done|]. by rewrite Hb1.
    + intros n. rewrite Hrem, Hrem1. split.
      * intros [[Hn Ha] HL]. split; [done|].
        intros path b ob [Heq|Hb]%elem_of_cons Hob Hsel.
        -- injection Heq as -> ->. rewrite Ho in Hob. injection Hob as <-.
           by apply Ha.
        -- assert (b ≠ a) as Hba.
           { intros ->. apply HaL. apply list_elem_of_fmap. by exists (path, a). }
           eapply HL; [done| |done]. by rewrite Hb1.
      * intros [Hn HL]. split; [split; [done|]|].
        -- intros Hsel. eapply HL; [by left|done..].
        -- intros path b ob Hb Hob Hsel.
           assert (b ≠ a) as Hba.
           { intros ->. apply HaL. apply list_elem_of_fmap. by exists (path, a). }
           eapply HL; [by right| |done]. by rewrite <- Hb1.
Qed.

Lemma iter_modules_lookup h self path a :
  (path, a) ∈ iter_modules h self →
  ∃ cls vars, h !! a = Some (ObjectInstance cls vars) ∧ cls_is_module cls = true.
Proof.
  intros [_ Hm]%elem_of_iter_modules. unfold is_Module in Hm.
  destruct (h !! a) as [[cls vars|]|]; try done. eauto.
Qed.

Lemma set_attributes_run h self filters raise_if_not_found attributes :
  ∃ remaining (h' : heap),
    set_attributes self filters raise_if_not_found attributes h
    = (if bool_decide (remaining ≠ ∅) && raise_if_not_found
       then Raise (ValueError (MsgNotFound remaining)) else Ok tt, h') ∧
    (∀ a, a ∉ (iter_modules h self).*2 → h' !! a = h !! a) ∧
    (∀ path a o, (path, a) ∈ iter_modules h self → h !! a = Some o →
       h' !! a = Some (visit_obj (predicates_of filters) attributes path a o)) ∧
    (∀ n, n ∈ remaining ↔ not_found h self filters attributes n).
Proof.
  destruct (for_modules_spec (predicates_of filters) attributes
              (iter_modules h self) (list_to_set attributes.*1) h)
    as (remaining & h' & Hrun & Hout & Hin & Hrem).
  { apply iter_modules_NoDup. }
  { intros path a (cls & vars & Ha & _)%iter_modules_lookup. by eexists. }
  exists remaining, h'. split; [|split; [done|split; [done|]]].
  - unfold set_attributes. unfold predicates_of in Hrun. rewrite Hrun.
    by destruct (bool_decide (remaining ≠ ∅) && raise_if_not_found).
  - intros n. rewrite Hrem, elem_of_list_to_set. unfold not_found.
    split; intros [Hn Hall]; (split; [done|]);
      intros path a o Ha Ho Hsel; specialize (Hall path a o Ha Ho Hsel).
    + rewrite elem_of_found_names in Hall. rewrite (hasattr_obj _ _ _ _ Ho).
      destruct (obj_hasattr o n); [|done]. exfalso. by apply Hall.
    + rewrite elem_of_found_names. rewrite (hasattr_obj _ _ _ _ Ho) in Hall.
      intros [_ ?]. congruence.
Qed.

Lemma set_attributes_heap h self filters r1 r2 attributes :
  (set_attributes self filters r1 attributes h).2
  = (set_attributes self filters r2 attributes h).2.
Proof.
  unfold set_attributes.
  destruct (foldl _ _ _) as [remaining h'].
  by destruct (bool_decide _ && r1), (bool_decide _ && r2).
Qed.

(** Each object is either left as it was, or is a selected module yielded
    by [iter_modules] and then updated by the attribute loop. *)
Lemma set_attributes_lookup h self filters raise_if_not_found attributes a :
  let h' := (set_attributes self filters raise_if_not_found attributes h).2 in
  h' !! a = h !! a ∨
  ∃ path o, (path, a) ∈ iter_modules h self ∧ h !! a = Some o ∧
            selected (predicates_of filters) path a o = true ∧
            h' !! a = Some (update_obj attributes o).
Proof.
  destruct (set_attributes_run h self filters raise_if_not_found attributes)
    as (remaining & h' & -> & Hout & Hin & _). simpl.
  destruct (decide (a ∈ (iter_modules h self).*2)) as [Ha|Ha].
  - apply list_elem_of_fmap in Ha as ([path a'] & -> & Ha). simpl.
    destruct (iter_modules_lookup _ _ _ _ Ha) as (cls & vars & Ho & _).
    specialize (Hin _ _ _ Ha Ho). unfold visit_obj in Hin.
    destruct (selected _ path a' _) eqn:Hsel.
    + right. by exists path, (ObjectInstance cls vars).
    + left. congruence.
  - left. by apply Hout.
Qed.

Lemma set_attributes_hasattr h self filters raise_if_not_found attributes a n :
  hasattr (set_attributes self filters raise_if_not_found attributes h).2 a n
  = hasattr h a n.
Proof.
  destruct (set_attributes_lookup h self filters raise_if_not_found
              attributes a) as [Heq|(path & o & _ & Ho & _ & Ho')];
    unfold hasattr; rewrite !getattr_obj.
  - by rewrite Heq.
  - rewrite Ho, Ho'. simpl. apply update_obj_hasattr.
Qed.

Lemma set_attributes_selected h self filters raise_if_not_found attributes
    path module o :
  (path, module) ∈ iter_modules h self → h !! module = Some o →
  selected (predicates_of filters) path module o = true →
  (set_attributes self filters raise_if_not_found attributes h).2 !! module
  = Some (update_obj attributes o).
Proof.
  intros Hin Ho Hsel.
  destruct (set_attributes_run h self filters raise_if_not_found attributes)
    as (remaining & h' & -> & _ & Hvisit & _). simpl.
  rewrite (Hvisit _ _ _ Hin Ho). unfold visit_obj. by rewrite Hsel.
Qed.

Lemma set_attributes_sets h self filters raise_if_not_found attributes
    path module o name v :
  NoDup attributes.*1 →
  (path, module) ∈ iter_modules h self → h !! module = Some o →
  selected (predicates_of filters) path module o = true →
  (name, v) ∈ attributes → hasattr h module name = true →
  getattr (set_attributes self filters raise_if_not_found attributes h).2
    module name = Some v.
Proof.
  intros Hnd Hin Ho Hsel Hname Hhas. rewrite getattr_obj.
  rewrite (set_attributes_selected _ _ _ _ _ _ _ _ Hin Ho Hsel). simpl.
  apply update_obj_set; [done..|]. by rewrite <- (hasattr_obj _ _ _ _ Ho).
Qed.

(** C3: [set_attributes] works in place.  On every module yielded by
    [iter_modules] that satisfies one of the predicates, each passed
    attribute the module has ([hasattr]) holds the passed value afterwards,
    on that same object, and a name the module does not have is still not
    an attribute of it; the store holds the same objects as before, each
    of the class it had. *)
Theorem set_attributes_in_place h self filters raise_if_not_found attributes :
  NoDup attributes.*1 →
  let h' := (set_attributes self filters raise_if_not_found attributes h).2 in
  dom h' = dom h ∧
  (∀ a, is_Module h' (VRef a) = is_Module h (VRef a)) ∧
  ∀ path module o,
    (path, module) ∈ iter_modules h self → h !! module = Some o →
    selected (predicates_of filters) path module o = true →
    (∀ name v, (name, v) ∈ attributes → hasattr h module name = true →
       getattr h' module name = Some v) ∧
    (∀ name, hasattr h module name = false → hasattr h' module name = false).
Proof.
  intros Hnd h'. split; [|split].
  - apply set_eq. intros a. rewrite !elem_of_dom.
    destruct (set_attributes_lookup h self filters raise_if_not_found
                attributes a) as [Heq|(path & o & _ & Ho & _ & Ho')].
    + fold h' in Heq. by rewrite Heq.
    + fold h' in Ho'. rewrite Ho, Ho'. split; by eexists.
  - intros a. unfold is_Module.
    destruct (set_attributes_lookup h self filters raise_if_not_found
                attributes a) as [Heq|(path & o & _ & Ho & _ & Ho')].
    + fold h' in Heq. by rewrite Heq.
    + fold h' in Ho'. rewrite Ho, Ho'. destruct o as [cls vars|ty raw].
      * by destruct (update_obj_class attributes cls vars) as [vars' ->].
      * by rewrite update_obj_Variable.
  - intros path module o Hin Ho Hsel. split.
    + intros name v Hname Hhas. by eapply set_attributes_sets.
    + intros name Hno. unfold h'. by rewrite set_attributes_hasattr.
Qed.

(** C4: [set_attributes] changes nothing else.  An object that is not a
    yielded module satisfying a predicate (a module matching no filter, or
    anything outside the traversal) is left exactly as it was, and on every
    object an attribute whose name is not among the passed keywords keeps
    its value. *)
Theorem set_attributes_frame h self filters raise_if_not_found attributes :
  let h' := (set_attributes self filters raise_if_not_found attributes h).2 in
  (∀ a,
     (∀ path o, (path, a) ∈ iter_modules h self → h !! a = Some o →
        selected (predicates_of filters) path a o = false) →
     h' !! a = h !! a) ∧
  (∀ a name, name ∉ attributes.*1 → getattr h' a name = getattr h a name).
Proof.
  intros h'. split.
  - intros a Hnot.
    destruct (set_attributes_lookup h self filters raise_if_not_found
                attributes a) as [Heq|(path & o & Hin & Ho & Hsel & _)];
      [done|].
    rewrite (Hnot _ _ Hin Ho) in Hsel. done.
  - intros a name Hname. rewrite !getattr_obj.
    destruct (set_attributes_lookup h self filters raise_if_not_found
                attributes a) as [Heq|(path & o & _ & Ho & _ & Ho')].
    + fold h' in Heq. by rewrite Heq.
    + fold h' in Ho'. rewrite Ho, Ho'. simpl. by apply update_obj_other.
Qed.

(** C8: with [raise_if_not_found=True], [set_attributes] raises exactly
    when some passed name is found on no selected module, and what it
    raises is the [ValueError] listing those names; with
    [raise_if_not_found=False] it does not raise.  The mutation is not
    rolled back: the store left behind is the one the call leaves when it
    does not raise, so every attribute found on a selected module holds
    its new value. *)
Theorem set_attributes_raises h self filters attributes :
  let res := (set_attributes self filters true attributes h).1 in
  let h' := (set_attributes self filters true attributes h).2 in
  ((∃ e, res = Raise e) ↔
   ∃ name, not_found h self filters attributes name) ∧
  (res = Ok tt ∨
   ∃ remaining,
     res = Raise (ValueError (MsgNotFound remaining)) ∧
     ∀ n, n ∈ remaining ↔ not_found h self filters attributes n) ∧
  (set_attributes self filters false attributes h).1 = Ok tt ∧
  h' = (set_attributes self filters false attributes h).2 ∧
  (NoDup attributes.*1 →
   ∀ path module o,
     (path, module) ∈ iter_modules h self → h !! module = Some o →
     selected (predicates_of filters) path module o = true →
     ∀ name v, (name, v) ∈ attributes → hasattr h module name = true →
       getattr h' module name = Some v).
Proof.
  intros res h'.
  destruct (set_attributes_run h self filters true attributes)
    as (remaining & h1 & Hrun & _ & _ & Hrem).
  assert (res = if bool_decide (remaining ≠ ∅)
                then Raise (ValueError (MsgNotFound remaining)) else Ok tt)
    as Hres.
  { unfold res. rewrite Hrun. simpl. by rewrite andb_true_r. }
  split; [|split; [|split; [|split]]].
  - rewrite Hres. destruct (bool_decide (remaining ≠ ∅)) eqn:Hne.
    + apply bool_decide_eq_true in Hne. apply set_choose_L in Hne as [n Hn].
      split; [|by eexists]. intros _. exists n. by apply Hrem.
    + apply bool_decide_eq_false in Hne. split; [by intros [e ?]|].
      intros [n Hn%Hrem]. exfalso. apply Hne. set_solver.
  - rewrite Hres. destruct (bool_decide (remaining ≠ ∅)); [|by left].
    right. by exists remaining.
  - destruct (set_attributes_run h self filters false attributes)
      as (remaining2 & h2 & -> & _). simpl. by rewrite andb_false_r.
  - apply set_attributes_heap.
  - intros Hnd path module o Hin Ho Hsel name v Hname Hhas.
    by eapply set_attributes_sets.
Qed.

(** ** [train] and [eval] *)

Lemma call_set_attributes_nil self fixed raise_if_not_found h :
  call_set_attributes self fixed [] raise_if_not_found h
  = set_attributes self [] raise_if_not_found fixed h.
Proof.
  unfold call_set_attributes. rewrite bool_decide_eq_false_2.
  - by rewrite app_nil_r.
  - simpl. by intros ?%Exists_nil.
Qed.

Lemma mode_attributes_spec h self b path module name :
  let attributes := [("deterministic", VBool b);
                     ("use_running_average", VBool b)] in
  let run := set_attributes self [] false attributes h in
  (path, module) ∈ iter_modules h self →
  name = "deterministic" ∨ name = "use_running_average" →
  run.1 = Ok tt ∧
  if hasattr h module name then getattr run.2 module name = Some (VBool b)
  else hasattr run.2 module name = false.
Proof.
  intros attributes run Hin Hname. split.
  - unfold run.
    destruct (set_attributes_run h self [] false attributes)
      as (remaining & h' & -> & _). simpl. by rewrite andb_false_r.
  - destruct (hasattr h module name) eqn:Hhas.
    + destruct (iter_modules_lookup _ _ _ _ Hin) as (cls & vars & Ho & _).
      eapply set_attributes_sets; [|done|done|done| |done].
      * simpl. repeat constructor; set_solver.
      * unfold attributes. destruct Hname as [->| ->]; set_solver.
    + unfold run. by rewrite set_attributes_hasattr.
Qed.

(** C1: [train()] and [eval()] never raise; on every module yielded by
    [iter_modules], [train()] leaves [deterministic] and
    [use_running_average] set to [False] and [eval()] leaves them set to
    [True] wherever the module has the attribute, and a module that lacks
    one of them still lacks it afterwards. *)
Theorem train_eval_modes h self :
  (train self [] h).1 = Ok tt ∧
  (eval self [] h).1 = Ok tt ∧
  ∀ path module name,
    (path, module) ∈ iter_modules h self →
    name = "deterministic" ∨ name = "use_running_average" →
    if hasattr h module name then
      getattr (train self [] h).2 module name = Some (VBool false) ∧
      getattr (eval self [] h).2 module name = Some (VBool true)
    else
      hasattr (train self [] h).2 module name = false ∧
      hasattr (eval self [] h).2 module name = false.
Proof.
  unfold train, eval. rewrite !call_set_attributes_nil.
  split; [|split].
  - destruct (set_attributes_run h self [] false
                [("deterministic", VBool false);
                 ("use_running_average", VBool false)])
      as (remaining & h' & -> & _). simpl. by rewrite andb_false_r.
  - destruct (set_attributes_run h self [] false
                [("deterministic", VBool true);
                 ("use_running_average", VBool true)])
      as (remaining & h' & -> & _). simpl. by rewrite andb_false_r.
  - intros path module name Hin Hname.
    pose proof (mode_attributes_spec h self false path module name Hin Hname)
      as [_ Ht].
    pose proof (mode_attributes_spec h self true path module name Hin Hname)
      as [_ He].
    by destruct (hasattr h module name).
Qed.

Lemma train_eval_modes_witness :
  getattr (train 1%positive [] block_heap).2 6%positive "deterministic"
    = Some (VBool false) ∧
  getattr (eval 1%positive [] block_heap).2 6%positive "deterministic"
    = Some (VBool true).
Proof.
  assert (H := proj2 (proj2 (train_eval_modes block_heap 1%positive))
                 ["dropout"] 6%positive "deterministic").
  set (b := hasattr block_heap 6%positive "deterministic") in H.
  vm_compute in b. subst b. apply H.
  - apply (bool_decide_unpack _). vm_compute. exact I.
  - by left.
Defined.

Lemma set_attributes_in_place_witness :
  getattr (set_attributes 1%positive [of_type "Dropout"] true
             [("deterministic", VBool true)] block_heap).2
    6%positive "deterministic" = Some (VBool true).
Proof.
  refine (proj1 (proj2 (proj2 (set_attributes_in_place block_heap 1%positive
            [of_type "Dropout"] true [("deterministic", VBool true)] _))
            ["dropout"] 6%positive
            (ObjectInstance (module_class "Dropout")
               (list_to_map [("deterministic", VBool false);
                             ("rate", VOther "float")])) _ _ _)
            "deterministic" (VBool true) _ _).
  - apply (bool_decide_unpack _). vm_compute. exact I.
  - apply (bool_decide_unpack _). vm_compute. exact I.
  - vm_compute. reflexivity.
  - vm_compute. reflexivity.
  - left.
  - vm_compute. reflexivity.
Defined.

Lemma set_attributes_frame_witness :
  (set_attributes 1%positive [of_type "Dropout"] true
     [("deterministic", VBool true)] block_heap).2 !! 7%positive
  = block_heap !! 7%positive.
Proof.
  refine (proj1 (set_attributes_frame block_heap 1%positive
            [of_type "Dropout"] true [("deterministic", VBool true)])
            7%positive _).
  intros path o Hin Ho.
  assert (o = ObjectInstance (module_class "BatchNorm")
                (list_to_map [("use_running_average", VBool false)])) as ->.
  { vm_compute in Ho. injection Ho as <-. vm_compute. reflexivity. }
  reflexivity.
Defined.

Lemma set_attributes_raises_witness :
  ∃ name, not_found block_heap 1%positive [] [("momentum", VInt 1)] name.
Proof.
  refine (proj1 (proj1 (set_attributes_raises block_heap 1%positive []
                          [("momentum", VInt 1)])) _).
  eexists. vm_compute. reflexivity.
Defined.

(** ** The pytree hooks *)

Lemma string_ltb_total (a b : string) :
  a ≠ b → String.ltb a b = false → String.ltb b a = true.
Proof.
  unfold String.ltb. intros Hne. rewrite (String.compare_antisym b a).
  destruct (String.compare a b) eqn:Hc; simpl; try done.
  by apply String.compare_eq_iff in Hc.
Qed.

Lemma path_leb_total (p q : PathParts) :
  path_leb p q = true ∨ path_leb q p = true.
Proof.
  revert q. induction p as [|a p IH]; intros [|b q]; simpl; auto.
  rewrite (String.eqb_sym b a).
  destruct (String.eqb a b) eqn:Hab; [apply IH|].
  apply String.eqb_neq in Hab.
  destruct (String.ltb a b) eqn:Hlt; [by left|right].
  by apply string_ltb_total.
Qed.

Global Instance entry_le_total {V} : Total (@entry_le V).
Proof. intros x y. apply path_leb_total. Qed.

Lemma State_of_lookup (items : list (PathParts * value)) :
  ∀ (m : State) path,
  NoDup items.*1 →
  foldl (λ m '(path, v), <[path := v]> m) m items !! path
  = match (list_to_map items : State) !! path with
    | Some v => Some v
    | None => m !! path
    end.
Proof.
  induction items as [|[k v] items IH]; intros m path Hnd; simpl; [done|].
  simpl in Hnd. apply NoDup_cons in Hnd as [Hk Hnd].
  rewrite IH by done.
  destruct (decide (k = path)) as [->|Hne].
  - rewrite lookup_insert_eq.
    by rewrite (not_elem_of_list_to_map_1 (M:=gmap PathParts) _ _ Hk),
      lookup_insert_eq.
  - by rewrite !lookup_insert_ne by done.
Qed.

Lemma State_of_items (state : State) items :
  items ≡ₚ map_to_list state → State_of items = state.
Proof.
  intros Hperm.
  assert (NoDup items.*1) as Hnd.
  { rewrite Hperm. apply NoDup_fst_map_to_list. }
  apply map_eq. intros path. unfold State_of.
  rewrite State_of_lookup by done. rewrite lookup_empty.
  rewrite (list_to_map_proper (M:=gmap PathParts) _ _ Hnd Hperm).
  rewrite list_to_map_to_list. by destruct (state !! path).
Qed.

Lemma zip_keys_values (key_values : list (PathParts * value)) with_keys :
  zip key_values.*1
      (child_value <$> (if with_keys : bool
                        then (λ '(key, v), KeyedChild key v) <$> key_values
                        else (λ '(_, v), PlainChild v) <$> key_values))
  = key_values.
Proof.
  destruct with_keys; induction key_values as [|[k v] kvs IH]; csimpl;
    by f_equal.
Qed.

(** What the two hooks do over any [graph.split] and [graph.merge]: the
    children are the leaves of the split, in the order of their sorted
    paths, and unflattening them is [graph.merge] of the split itself. *)
Lemma module_flatten_unflatten {GraphDef : Type}
    (split : heap → addr → option (GraphDef * State))
    (merge : GraphDef → State → heap → option (addr * heap))
    h m with_keys g s h0 :
  split h m = Some (g, s) →
  ∃ children keys,
    _module_flatten split h m with_keys = Some (children, (keys, g)) ∧
    Sorted path_le keys ∧
    zip keys (child_value <$> children) ≡ₚ map_to_list s ∧
    _module_unflatten merge (keys, g) (child_value <$> children) h0
      = merge g s h0.
Proof.
  intros Hsplit. unfold _module_flatten. rewrite Hsplit.
  set (key_values := merge_sort entry_le (map_to_list s)).
  eexists _, _. split; [done|].
  assert (key_values ≡ₚ map_to_list s) as Hperm by apply merge_sort_Permutation.
  split; [|split].
  - apply (Sorted_fmap fst entry_le path_le); [done|].
    apply (Sorted_merge_sort entry_le).
  - by rewrite zip_keys_values.
  - unfold _module_unflatten. rewrite zip_keys_values.
    by rewrite (State_of_items s).
Qed.

(** ** [graph.merge] inverts [graph.split] *)

Lemma string_leb_trans (a b c : string) :
  String.leb a b = true → String.leb b c = true → String.leb a c = true.
Proof.
  unfold String.leb. revert b c.
  induction a as [|x a IH]; intros [|y b] [|z c]; simpl; try done.
  unfold Ascii.compare.
  destruct (N.compare_spec (N_of_ascii x) (N_of_ascii y)) as [Hxy|Hxy|Hxy];
    destruct (N.compare_spec (N_of_ascii y) (N_of_ascii z)) as [Hyz|Hyz|Hyz];
    destruct (N.compare_spec (N_of_ascii x) (N_of_ascii z)) as [Hxz|Hxz|Hxz];
    try done; try lia.
  apply IH.
Qed.

Global Instance str_le_trans : Transitive str_le.
Proof. intros a b c. apply string_leb_trans. Qed.

Global Instance item_le_trans {V} : Transitive (@item_le V).
Proof. intros x y z. apply str_le_trans. Qed.

Global Instance item_le_total {V} : Total (@item_le V).
Proof. intros x y. apply String.leb_total. Qed.

(** A node dictionary is determined by its keys and the values under them:
    sorting the items of the dictionary built from a sorted item list
    gives the list back. *)
Lemma sorted_items_unique {V} (l1 l2 : list (string * V)) :
  NoDup l1.*1 → Sorted item_le l1 → Sorted item_le l2 → l1 ≡ₚ l2 → l1 = l2.
Proof.
  intros Hnd Hs1 Hs2 Hperm.
  apply (Sorted_unique_strong item_le); try done.
  intros [k1 v1] [k2 v2] H1 H2 Hle1 Hle2.
  assert (k1 = k2) as <- by by apply String.leb_antisym.
  rewrite <- Hperm in H2.
  f_equal. clear -Hnd H1 H2.
  induction l1 as [|[k v] l1 IH]; [by apply elem_of_nil in H1|].
  simpl in Hnd. apply NoDup_cons in Hnd as [Hk Hnd].
  assert (∀ w, (k, w) ∈ l1 → False) as Hfresh.
  { intros w Hw. apply Hk. apply list_elem_of_fmap. by exists (k, w). }
  apply elem_of_cons in H1 as [H1|H1]; apply elem_of_cons in H2 as [H2|H2].
  - congruence.
  - injection H1 as -> ->. exfalso. eauto.
  - injection H2 as -> ->. exfalso. eauto.
  - by apply IH.
Qed.

Lemma sorted_items_of_map (items : list (Key * value)) :
  NoDup items.*1 → Sorted item_le items →
  merge_sort item_le (map_to_list (list_to_map items : gmap string value))
  = items.
Proof.
  intros Hnd Hs. symmetry. apply sorted_items_unique; [done..| |].
  - apply (Sorted_merge_sort item_le).
  - rewrite merge_sort_Permutation. by rewrite map_to_list_to_map.
Qed.

Lemma Sorted_item_le_keys {V W} (l1 : list (string * V)) (l2 : list (string * W)) :
  l1.*1 = l2.*1 → Sorted item_le l1 → Sorted item_le l2.
Proof.
  revert l2. induction l1 as [|[k v] l1 IH]; intros l2 Hk Hs.
  - destruct l2; [constructor|done].
  - destruct l2 as [|[k' w] l2]; [done|].
    simpl in Hk. injection Hk as <- Hk.
    apply Sorted_inv in Hs as [Hs Hhd]. constructor; [by apply IH|].
    destruct l1 as [|[k1 v1] l1], l2 as [|[k2 w2] l2]; try done.
    simpl in Hk. injection Hk as <- Hk.
    apply HdRel_inv in Hhd. by constructor.
Qed.

Lemma variable_paths_items_cons key g gs path :
  variable_paths_items ((key, g) :: gs) path
  = variable_paths g (path ++ [key]) ++ variable_paths_items gs path.
Proof. done. Qed.

Lemma split_items_fuel rec rec' d : ∀ items path st gs st',
  (∀ v p s g s', rec v p s = Some (g, s') → (depth g ≤ d)%nat →
                 rec' v p s = Some (g, s')) →
  split_items rec items path st = Some (gs, st') →
  (depth_items gs ≤ d)%nat →
  split_items rec' items path st = Some (gs, st').
Proof.
  induction items as [|[key v] items IH]; intros path st gs st' Hrec Hrun Hd;
    simpl in *; [done|].
  destruct (rec v (path ++ [key]) st) as [[g st1]|] eqn:Hv; [|done].
  destruct (split_items rec items path st1) as [[gs' st2]|] eqn:Hrest; [|done].
  injection Hrun as <- <-. unfold depth_items in Hd. simpl in Hd.
  rewrite (Hrec _ _ _ _ _ Hv) by lia.
  rewrite (IH _ _ _ _ Hrec Hrest) by (unfold depth_items; lia). done.
Qed.

(** Any fuel beyond the depth of the description gives the same split. *)
Lemma _graph_flatten_fuel h n : ∀ v path st g st' n',
  _graph_flatten n h v path st = Some (g, st') →
  (depth g < n')%nat →
  _graph_flatten n' h v path st = Some (g, st').
Proof.
  induction n as [|n IH]; intros v path st g st' n' Hrun Hd; [done|].
  destruct n' as [|n']; [lia|]. simpl in *.
  destruct v as [| | | | | |a]; try done.
  destruct (st.1 !! a) as [i|]; [done|].
  destruct (h !! a) as [[cls vars|ty raw]|]; try done.
  destruct (split_items _ _ _ _) as [[attributes st1]|] eqn:Hitems; [|done].
  injection Hrun as <- <-. simpl in Hd.
  assert (∀ v p s g s', _graph_flatten n h v p s = Some (g, s') →
            (depth g ≤ depth_items attributes)%nat →
            _graph_flatten n' h v p s = Some (g, s')) as Hrec.
  { intros v p s g s' Hv Hg. eapply IH; [done|].
    unfold depth_items in Hg. lia. }
  by rewrite (split_items_fuel _ _ _ _ _ _ _ _ Hrec Hitems).
Qed.

Lemma split_grows_size h d vp st st' :
  split_grows h d vp st st' → (size st.1 ≤ size st'.1)%nat.
Proof. intros (Hsub & _). by apply map_subseteq_size. Qed.

Lemma split_items_grows h rec : ∀ items path st gs st',
  (∀ v p s g s', rec v p s = Some (g, s') →
                 split_grows h (depth g) (variable_paths g p) s s') →
  split_items rec items path st = Some (gs, st') →
  split_grows h (depth_items gs) (variable_paths_items gs path) st st'.
Proof.
  induction items as [|[key v] items IH]; intros path st gs st' Hrec Hrun;
    simpl in Hrun.
  - injection Hrun as <- <-. unfold split_grows, depth_items. simpl.
    split; [done|]. split; [set_solver|]. split; [lia|set_solver].
  - destruct (rec v (path ++ [key]) st) as [[g st1]|] eqn:Hv; [|done].
    destruct (split_items rec items path st1) as [[gs' st2]|] eqn:Hrest;
      [|done].
    injection Hrun as <- <-.
    apply Hrec in Hv as (Hsub1 & Hdom1 & Hsz1 & Hst1).
    apply IH in Hrest as (Hsub2 & Hdom2 & Hsz2 & Hst2); [|done].
    pose proof (map_subseteq_size _ _ Hsub1).
    pose proof (map_subseteq_size _ _ Hsub2).
    split; [by etrans|]. split; [set_solver|]. split.
    + unfold depth_items in *. simpl. lia.
    + rewrite variable_paths_items_cons, list_to_set_app_L. set_solver.
Qed.

Lemma split_grows_refl h st : split_grows h 0 [] st st.
Proof.
  split; [done|]. split; [set_solver|]. split; [lia|set_solver].
Qed.

Lemma _graph_flatten_grows h n : ∀ v path st g st',
  _graph_flatten n h v path st = Some (g, st') →
  split_grows h (depth g) (variable_paths g path) st st'.
Proof.
  induction n as [|n IH]; intros v path st g st' Hrun; [done|].
  simpl in Hrun.
  destruct v as [| | | | | |a];
    try (injection Hrun as <- <-; apply split_grows_refl).
  destruct (st.1 !! a) as [i|] eqn:Hrefs.
  { injection Hrun as <- <-. apply split_grows_refl. }
  destruct (h !! a) as [[cls vars|ty raw]|] eqn:Ha; try done.
  - destruct (split_items _ _ _ _) as [[attributes st1]|] eqn:Hitems; [|done].
    injection Hrun as <- <-.
    apply (split_items_grows h) in Hitems as (Hsub & Hdom & Hsz & Hst);
      [|exact IH].
    simpl in *. rewrite map_size_insert_None in Hsz by done.
    split; [|split; [|split]].
    + etrans; [|exact Hsub]. by apply insert_subseteq.
    + rewrite dom_insert in Hdom. apply elem_of_dom_2 in Ha. set_solver.
    + unfold depth_items in Hsz. lia.
    + done.
  - injection Hrun as <- <-. simpl. split; [|split; [|split]]; simpl.
    + by apply insert_subseteq.
    + rewrite dom_insert. apply elem_of_dom_2 in Ha. set_solver.
    + rewrite map_size_insert_None by done. lia.
    + rewrite dom_insert_L. set_solver.
Qed.

Lemma merged_ok_dom refs' idx hm idx' hm' :
  merged_ok refs' idx hm idx' hm' → dom hm ⊆ dom hm'.
Proof.
  intros (_ & _ & _ & Hframe & _) a Ha. apply elem_of_dom.
  rewrite Hframe by done. by apply elem_of_dom.
Qed.

Lemma merged_ok_refl refs idx hm :
  (∀ a i, refs !! a = Some i → (i < size refs)%nat) →
  idx_ok (size refs) idx hm → merged_ok refs idx hm idx hm.
Proof.
  intros Hb Hidx. split; [done|]. split; [done|]. split; [done|].
  split; [done|]. intros i a Hi Hn. congruence.
Qed.

Lemma merged_ok_trans refs1 refs2 idx hm idx1 hm1 idx2 hm2 :
  merged_ok refs1 idx hm idx1 hm1 → merged_ok refs2 idx1 hm1 idx2 hm2 →
  merged_ok refs2 idx hm idx2 hm2.
Proof.
  intros H1 H2. pose proof (merged_ok_dom _ _ _ _ _ H1) as Hdom1.
  destruct H1 as (_ & _ & Hsub1 & Hframe1 & Hnew1).
  destruct H2 as (Hb2 & Hidx2 & Hsub2 & Hframe2 & Hnew2).
  split; [done|]. split; [done|]. split; [by etrans|]. split.
  - intros a Ha. rewrite Hframe2 by set_solver. by apply Hframe1.
  - intros i a Hi Hn. destruct (idx1 !! i) as [a1|] eqn:Hi1.
    + assert (idx2 !! i = Some a1) as Hi2
        by by eapply lookup_weaken.
      rewrite Hi in Hi2. injection Hi2 as ->. by eapply Hnew1.
    + intros Ha. eapply Hnew2; [done..|]. set_solver.
Qed.

Lemma sim_items n h :
  sim_at n h →
  ∀ items path refs st gs refs' st',
    split_items (_graph_flatten n h) items path (refs, st)
      = Some (gs, (refs', st')) →
    (∀ a i, refs !! a = Some i → (i < size refs)%nat) →
    ∀ s idx (hm : heap),
      idx_ok (size refs) idx hm →
      (∀ p, p ∈ variable_paths_items gs path → is_Some (s !! p)) →
      ∃ vs idx' hm',
        _graph_unflatten_items s path gs (idx, hm) = Some (vs, (idx', hm')) ∧
        vs.*1 = items.*1 ∧
        merged_ok refs' idx hm idx' hm' ∧
        resplit_ok (λ hf st2, split_items (_graph_flatten n hf) vs path st2)
          gs (variable_paths_items gs path) s refs refs' idx idx' hm hm'.
Proof.
  intros Hsim.
  induction items as [|[key v] items IH];
    intros path refs st gs refs' st' Hrun Hb s idx hm Hidx Hs; simpl in Hrun.
  - injection Hrun as <- <- <-. exists [], idx, hm.
    split; [done|]. split; [done|]. split; [by apply merged_ok_refl|].
    intros hf refs2 st2 Hhf Hinv Hsz. exists refs2, st2.
    split; [done|]. split; [done|]. split; [done|].
    intros p. case_decide as Hp; [by apply elem_of_nil in Hp|done].
  - destruct (_graph_flatten n h v (path ++ [key]) (refs, st))
      as [[g [refs1 st1]]|] eqn:Hv; [|done].
    destruct (split_items _ items path (refs1, st1))
      as [[gs' [refs2_ st2_]]|] eqn:Hrest; [|done].
    injection Hrun as <- <- <-.
    rewrite variable_paths_items_cons in Hs.
    destruct (Hsim _ _ _ _ _ _ _ Hv Hb s idx hm Hidx)
      as (v' & idx1 & hm1 & Hm1 & Hok1 & Hre1).
    { intros p Hp. apply Hs. set_solver. }
    pose proof Hok1 as (Hb1 & Hidx1 & _).
    destruct (IH _ _ _ _ _ _ Hrest Hb1 s idx1 hm1 Hidx1)
      as (vs & idx' & hm' & Hm2 & Hkeys & Hok2 & Hre2).
    { intros p Hp. apply Hs. set_solver. }
    exists ((key, v') :: vs), idx', hm'. split.
    { simpl. rewrite Hm1. fold (_graph_unflatten_items s path).
      by rewrite Hm2. }
    split; [csimpl; by rewrite Hkeys|].
    split; [by eapply merged_ok_trans|].
    intros hf refs2 st2 Hhf Hinv Hsz.
    pose proof (merged_ok_dom _ _ _ _ _ Hok1) as Hdom1.
    pose proof (merged_ok_dom _ _ _ _ _ Hok2) as Hdom2.
    destruct (Hre1 hf refs2 st2)
      as (refs2_1 & st2_1 & Hrun1 & Hinv1 & Hsz1 & Hst1); [|done|done|].
    { intros a Ha Hna. rewrite Hhf; [|set_solver|done].
      destruct Hok2 as (_ & _ & _ & Hframe2 & _). by apply Hframe2. }
    destruct (Hre2 hf refs2_1 st2_1)
      as (refs2' & st2' & Hrun2 & Hinv2 & Hsz2 & Hst2); [|done|done|].
    { intros a Ha Hna. apply Hhf; [done|]. set_solver. }
    exists refs2', st2'. split.
    { simpl. rewrite Hrun1. by rewrite Hrun2. }
    split; [done|]. split; [done|].
    intros p. rewrite Hst2, Hst1. rewrite variable_paths_items_cons.
    repeat case_decide; set_solver.
Qed.

Lemma idx_ok_None n idx (hm : heap) : idx_ok n idx hm → idx !! n = None.
Proof.
  intros [Hdom _]. apply eq_None_not_Some. rewrite Hdom. lia.
Qed.

Lemma idx_ok_insert n idx (hm : heap) a o :
  idx_ok n idx hm → idx_ok (S n) (<[n := a]> idx) (<[a := o]> hm).
Proof.
  intros [Hdom Hran]. split.
  - intros i. destruct (decide (i = n)) as [->|Hne].
    + rewrite lookup_insert_eq. split; [lia|by eexists].
    + rewrite lookup_insert_ne by done. rewrite Hdom. lia.
  - intros i b. destruct (decide (i = n)) as [->|Hne].
    + rewrite lookup_insert_eq. intros [= <-]. set_solver.
    + rewrite lookup_insert_ne by done. intros Hi%Hran. set_solver.
Qed.

Lemma inv_refs_fresh n idx (hm : heap) refs2 a :
  idx_ok n idx hm → inv_refs idx refs2 → a ∉ dom hm → refs2 !! a = None.
Proof.
  intros [_ Hran] Hinv Ha. destruct (refs2 !! a) as [i|] eqn:Hi; [|done].
  apply Hinv in Hi. apply Hran in Hi. done.
Qed.

Lemma inv_refs_insert n idx refs2 a :
  inv_refs idx refs2 → idx !! n = None → refs2 !! a = None →
  inv_refs (<[n := a]> idx) (<[a := n]> refs2).
Proof.
  intros Hinv Hn Ha i b.
  destruct (decide (i = n)) as [->|Hi], (decide (b = a)) as [->|Hb];
    rewrite ?lookup_insert_eq, ?lookup_insert_ne by done.
  - done.
  - split; [by intros [= ->]|]. intros Hb'%Hinv. congruence.
  - split; [|by intros [= ->]]. intros Ha'%Hinv. congruence.
  - apply Hinv.
Qed.

Lemma merged_ok_insert refs a idx (hm : heap) o :
  (∀ b i, refs !! b = Some i → (i < size refs)%nat) →
  refs !! a = None →
  idx_ok (size refs) idx hm →
  let a' := fresh (dom hm) in
  merged_ok (<[a := size refs]> refs) idx hm
    (<[size refs := a']> idx) (<[a' := o]> hm).
Proof.
  intros Hb Ha Hidx a'.
  assert (a' ∉ dom hm) as Hfresh by apply is_fresh.
  pose proof (idx_ok_None _ _ _ Hidx) as Hn.
  split; [|split; [|split; [|split]]].
  - intros b i. rewrite map_size_insert_None by done.
    destruct (decide (a = b)) as [<-|Hne].
    + rewrite lookup_insert_eq. intros [= <-]. lia.
    + rewrite lookup_insert_ne by done. intros Hi%Hb. lia.
  - rewrite map_size_insert_None by done. by apply idx_ok_insert.
  - by apply insert_subseteq.
  - intros b Hb'. rewrite lookup_insert_ne; [done|]. by intros <-.
  - intros i b Hi Hnone. destruct (decide (i = size refs)) as [->|Hne].
    + rewrite lookup_insert_eq in Hi. by injection Hi as <-.
    + rewrite lookup_insert_ne in Hi by done. congruence.
Qed.

Lemma sim_static n v refs (path : PathParts) :
  (∀ a, v ≠ VRef a) →
  (∀ a i, refs !! a = Some i → (i < size refs)%nat) →
  ∀ s idx (hm : heap),
    idx_ok (size refs) idx hm →
    ∃ v' idx' hm',
      _graph_unflatten (Static v) s path (idx, hm) = Some (v', (idx', hm')) ∧
      merged_ok refs idx hm idx' hm' ∧
      resplit_ok (λ hf st2, _graph_flatten (S n) hf v' path st2) (Static v)
        [] s refs refs idx idx' hm hm'.
Proof.
  intros Hv Hb s idx hm Hidx. exists v, idx, hm.
  split; [done|]. split; [by apply merged_ok_refl|].
  intros hf refs2 st2 _ Hinv Hsz. exists refs2, st2.
  split; [|split; [done|split; [done|]]].
  - simpl. destruct v; try done. by destruct (Hv a).
  - intros p. case_decide as Hp; [by apply elem_of_nil in Hp|done].
Qed.

Lemma sim n h : sim_at n h.
Proof.
  induction n as [|n IH];
    intros v path refs st g refs' st' Hrun Hb s idx hm Hidx Hs; [done|].
  simpl in Hrun.
  destruct v as [| | | | | |a];
    try (injection Hrun as <- <- <-; by apply sim_static).
  destruct (refs !! a) as [i|] eqn:Hrefs.
  { (* met before *)
    injection Hrun as <- <- <-.
    destruct Hidx as [Hdom Hran].
    destruct (proj2 (Hdom i) (Hb _ _ Hrefs)) as [a' Ha'].
    exists (VRef a'), idx, hm. split; [simpl; by rewrite Ha'|].
    split; [by apply merged_ok_refl|].
    intros hf refs2 st2 _ Hinv Hsz. exists refs2, st2.
    split; [|split; [done|split; [done|]]].
    - simpl. apply Hinv in Ha'. by rewrite Ha'.
    - intros p. case_decide as Hp; [by apply elem_of_nil in Hp|done]. }
  destruct (h !! a) as [[cls vars|ty raw]|] eqn:Ha; try done.
  - (* a node *)
    destruct (split_items _ _ _ _) as [[attributes [refs1 st1]]|] eqn:Hitems;
      [|done].
    injection Hrun as <- <- <-.
    set (a' := fresh (dom hm)).
    assert (a' ∉ dom hm) as Hfresh by apply is_fresh.
    pose proof (merged_ok_insert refs a idx hm (ObjectInstance cls ∅)
                  Hb Hrefs Hidx) as Hok0.
    fold a' in Hok0. pose proof Hok0 as (Hb0 & Hidx0 & _).
    destruct (sim_items n h IH _ _ _ _ _ _ _ Hitems Hb0 s _ _ Hidx0)
      as (vs & idx1 & hm1 & Hm & Hkeys & Hok1 & Hre).
    { intros p Hp. by apply Hs. }
    pose proof (merged_ok_dom _ _ _ _ _ Hok1) as Hdom1.
    assert (a' ∈ dom hm1) as Ha'1 by set_solver.
    exists (VRef a'), idx1,
      (<[a' := ObjectInstance cls (list_to_map vs)]> hm1).
    split; [|split].
    + change (_graph_unflatten (NodeDef cls (size refs) attributes) s path
                (idx, hm))
        with (match _graph_unflatten_items s path attributes
                      (<[size refs := a']> idx,
                       <[a' := ObjectInstance cls ∅]> hm) with
              | Some (items, st') =>
                  Some (VRef a',
                        (st'.1,
                         <[a' := ObjectInstance cls (list_to_map items)]>
                           st'.2))
              | None => None
              end).
      by rewrite Hm.
    + assert (merged_ok refs1 idx hm idx1 hm1) as Hok
        by by eapply merged_ok_trans.
      destruct Hok as (Hb1 & [Hdomi Hrani] & Hsub & Hframe & Hnew).
      split; [done|]. split; [|split; [done|split; [|done]]].
      * split; [done|]. intros i b Hi%Hrani. set_solver.
      * intros b Hb'. rewrite lookup_insert_ne by (by intros <-).
        by apply Hframe.
    + intros hf refs2 st2 Hhf Hinv Hsz.
      assert (refs2 !! a' = None) as Hr2
        by exact (inv_refs_fresh _ idx hm refs2 a' Hidx Hinv Hfresh).
      assert (hf !! a' = Some (ObjectInstance cls (list_to_map vs))) as Hhf'.
      { rewrite Hhf; [apply lookup_insert_eq|set_solver|done]. }
      assert (merge_sort item_le (map_to_list (list_to_map vs
                : gmap string value)) = vs) as Hsorted.
      { assert (vs.*1 = (merge_sort item_le (map_to_list vars)).*1) as Hk
          by exact Hkeys.
        apply sorted_items_of_map.
        - rewrite Hk, merge_sort_Permutation. apply NoDup_fst_map_to_list.
        - eapply Sorted_item_le_keys; [symmetry; exact Hk|].
          apply (Sorted_merge_sort item_le). }
      destruct (Hre hf (<[a' := size refs2]> refs2) st2)
        as (refs2' & st2' & Hrun2 & Hinv2 & Hsz2 & Hst2).
      * intros b Hin1 Hin0. rewrite Hhf.
        -- apply lookup_insert_ne. intros <-. set_solver.
        -- set_solver.
        -- set_solver.
      * rewrite Hsz. apply inv_refs_insert; [done| |done].
        by eapply idx_ok_None.
      * rewrite !map_size_insert_None by done. by rewrite Hsz.
      * exists refs2', st2'. split; [|done].
        simpl. rewrite Hr2, Hhf', Hsorted, Hrun2. by rewrite Hsz.
  - (* a Variable *)
    injection Hrun as <- <- <-.
    destruct (Hs path) as [r Hr]; [simpl; by left|].
    set (a' := fresh (dom hm)).
    assert (a' ∉ dom hm) as Hfresh by apply is_fresh.
    exists (VRef a'), (<[size refs := a']> idx),
      (<[a' := VariableInstance ty r]> hm).
    split; [simpl; by rewrite Hr|]. split; [by apply merged_ok_insert|].
    intros hf refs2 st2 Hhf Hinv Hsz.
    assert (refs2 !! a' = None) as Hr2
        by exact (inv_refs_fresh _ idx hm refs2 a' Hidx Hinv Hfresh).
    assert (hf !! a' = Some (VariableInstance ty r)) as Hhf'.
    { rewrite Hhf; [apply lookup_insert_eq|set_solver|done]. }
    exists (<[a' := size refs2]> refs2), (<[path := r]> st2).
    split; [|split; [|split]].
    + simpl. rewrite Hr2, Hhf'. by rewrite Hsz.
    + rewrite Hsz. apply inv_refs_insert; [done| |done].
      by eapply idx_ok_None.
    + rewrite !map_size_insert_None by done. by rewrite Hsz.
    + intros p. simpl. destruct (decide (p = path)) as [->|Hne].
      * rewrite lookup_insert_eq. by rewrite decide_True by by left.
      * rewrite lookup_insert_ne by done.
        rewrite decide_False; [done|]. by intros ->%list_elem_of_singleton.
Qed.

Lemma split_items_total h rec (refs0 : gmap addr nat) : ∀ items path st,
  (∀ v p s, refs0 ⊆ s.1 → value_closed h v → is_Some (rec v p s)) →
  (∀ v p s g s', rec v p s = Some (g, s') → s.1 ⊆ s'.1) →
  Forall (λ kv, value_closed h kv.2) items →
  refs0 ⊆ st.1 →
  is_Some (split_items rec items path st).
Proof.
  induction items as [|[key v] items IH]; intros path st Htot Hmono Hcl Hst;
    simpl; [by eexists|].
  apply Forall_cons in Hcl as [Hv Hcl].
  destruct (Htot v (path ++ [key]) st Hst Hv) as [[g st1] Hrun].
  rewrite Hrun. apply Hmono in Hrun.
  destruct (IH path st1 Htot Hmono Hcl) as [[gs st2] Hrest]; [by etrans|].
  rewrite Hrest. by eexists.
Qed.

Lemma _graph_flatten_total h n : ∀ v path st,
  heap_closed h → value_closed h v →
  (size (dom h ∖ dom st.1) < n)%nat →
  is_Some (_graph_flatten n h v path st).
Proof.
  induction n as [|n IH]; intros v path st Hh Hv Hn; [lia|]. simpl.
  destruct v as [| | | | | |a]; try by eexists.
  destruct (st.1 !! a) as [i|] eqn:Hrefs; [by eexists|].
  destruct Hv as [o Ho]. rewrite Ho.
  destruct o as [cls vars|ty raw]; [|by eexists].
  set (st0 := (<[a := size st.1]> st.1, st.2)).
  assert (size (dom h ∖ dom st0.1) < size (dom h ∖ dom st.1))%nat as Hless.
  { apply subset_size. unfold st0. simpl. rewrite dom_insert_L.
    apply elem_of_dom_2 in Ho. apply not_elem_of_dom in Hrefs. set_solver. }
  destruct (split_items_total h (_graph_flatten n h) st0.1
              (merge_sort item_le (map_to_list vars)) path st0)
    as [[gs st1] Hitems]; [| | |done|].
  - intros v p s Hs Hv. apply IH; [done..|].
    assert (size (dom h ∖ dom s.1) ≤ size (dom h ∖ dom st0.1))%nat; [|lia].
    apply subseteq_size. apply subseteq_dom in Hs. set_solver.
  - intros v p s g s' Hrun.
    by apply (_graph_flatten_grows h) in Hrun as (? & _).
  - apply Forall_forall. intros [key v] Hin. simpl.
    rewrite merge_sort_Permutation in Hin. apply elem_of_map_to_list in Hin.
    specialize (Hh _ _ Ho). simpl in Hh. by specialize (Hh _ _ Hin).
  - fold st0. rewrite Hitems. by eexists.
Qed.

Lemma graph_split_total h m :
  heap_closed h → is_Some (h !! m) → is_Some (graph_split h m).
Proof.
  intros Hh Hm. unfold graph_split.
  destruct (_graph_flatten_total h (S (size h)) (VRef m) [] (∅, ∅))
    as [[g [refs s]] ->]; [done|done| |by eexists].
  simpl. rewrite dom_empty_L, difference_empty_L, size_dom. lia.
Qed.

Lemma _graph_unflatten_ref n h a path st g st' s mst v' mst' :
  _graph_flatten n h (VRef a) path st = Some (g, st') →
  _graph_unflatten g s path mst = Some (v', mst') →
  ∃ a', v' = VRef a'.
Proof.
  destruct n as [|n]; [done|]. simpl.
  destruct (st.1 !! a) as [i|].
  { intros [= <- <-]. simpl. destruct (mst.1 !! i); [|done].
    intros [= <- <-]. by eexists. }
  destruct (h !! a) as [[cls vars|ty raw]|]; try done.
  - destruct (split_items _ _ _ _) as [[attributes st1]|]; [|done].
    intros [= <- <-].
    change (_graph_unflatten (NodeDef cls (size st.1) attributes) s path mst)
      with (match _graph_unflatten_items s path attributes
                    (<[size st.1 := fresh (dom mst.2)]> mst.1,
                     <[fresh (dom mst.2) := ObjectInstance cls ∅]> mst.2) with
            | Some (items, st') =>
                Some (VRef (fresh (dom mst.2)),
                      (st'.1,
                       <[fresh (dom mst.2) :=
                           ObjectInstance cls (list_to_map items)]> st'.2))
            | None => None
            end).
    destruct (_graph_unflatten_items _ _ _ _) as [[items st2]|]; [|done].
    intros [= <- <-]. by eexists.
  - intros [= <- <-]. simpl. destruct (s !! path); [|done].
    intros [= <- <-]. by eexists.
Qed.

(** [graph.merge] inverts [graph.split]: merging the description and the
    mapping of a module, into any store, builds a module whose split is
    that description and that mapping. *)
Lemma graph_merge_split h m g s (h0 : heap) :
  graph_split h m = Some (g, s) →
  ∃ m' h', graph_merge g s h0 = Some (m', h') ∧
           graph_split h' m' = Some (g, s).
Proof.
  unfold graph_split.
  destruct (_graph_flatten (S (size h)) h (VRef m) [] (∅, ∅))
    as [[g' [refs' s']]|] eqn:Hrun; [|done].
  intros [= -> ->].
  pose proof (_graph_flatten_grows _ _ _ _ _ _ _ Hrun) as (_ & _ & _ & Hdom).
  simpl in Hdom. rewrite dom_empty_L, (left_id_L ∅ (∪)) in Hdom.
  destruct (sim (S (size h)) h _ _ _ _ _ _ _ Hrun) with (s := s) (idx := (∅ : gmap nat addr)) (hm := h0)
    as (v' & idx' & hm' & Hm & Hok & Hre).
  { intros a i. by rewrite lookup_empty. }
  { split.
    - intros i. rewrite lookup_empty, map_size_empty. split; [by intros [? ?]|lia].
    - intros i a. by rewrite lookup_empty. }
  { intros p Hp. apply elem_of_dom. rewrite Hdom. set_solver. }
  destruct (_graph_unflatten_ref _ _ _ _ _ _ _ _ _ _ _ Hrun Hm) as [a' ->].
  exists a', hm'. split; [unfold graph_merge; by rewrite Hm|].
  destruct (Hre hm' ∅ ∅) as (refs2 & s2 & Hrun2 & _ & _ & Hs2); [done| |done|].
  { intros i a. by rewrite !lookup_empty. }
  assert (s2 = s) as ->.
  { apply map_eq. intros p. rewrite Hs2. case_decide as Hp; [done|].
    rewrite lookup_empty. symmetry. apply not_elem_of_dom. rewrite Hdom.
    set_solver. }
  pose proof (_graph_flatten_grows _ _ _ _ _ _ _ Hrun2)
    as (_ & Hdom2 & Hsz2 & _). simpl in Hdom2, Hsz2.
  rewrite map_size_empty in Hsz2.
  assert (size refs2 ≤ size hm')%nat as Hle.
  { rewrite <- !size_dom. apply subseteq_size. set_solver. }
  rewrite (_graph_flatten_fuel _ _ _ _ _ _ _ (S (size hm')) Hrun2); [done|].
  lia.
Qed.

Lemma graph_split_Module h m g s :
  graph_split h m = Some (g, s) →
  is_Module h (VRef m) = true ↔
  ∃ cls index attributes, g = NodeDef cls index attributes ∧
                          cls_is_module cls = true.
Proof.
  unfold graph_split. simpl. rewrite lookup_empty.
  destruct (h !! m) as [[cls vars|ty raw]|]; [| |done].
  - destruct (split_items _ _ _ _) as [[attributes [refs st]]|]; [|done].
    intros [= <- <-]. split.
    + intros Hm. by exists cls, (size (∅ : gmap addr nat)), attributes.
    + by intros (? & ? & ? & [= <- _ _] & ?).
  - intros [= <- <-]. split; [done|]. by intros (? & ? & ? & ? & _).
Qed.

Lemma flatten_children_keys (key_values : list (PathParts * value)) with_keys :
  (if with_keys : bool
   then (λ '(key, v), KeyedChild key v) <$> key_values
   else (λ '(_, v), PlainChild v) <$> key_values)
  = if with_keys
    then zip_with KeyedChild key_values.*1 key_values.*2
    else PlainChild <$> key_values.*2.
Proof.
  destruct with_keys; induction key_values as [|[k v] kvs IH]; csimpl;
    by f_equal.
Qed.

(** C7: flatten/unflatten round trip.  For every module [m] of a store
    whose references all lead to objects, [_module_flatten] returns: it
    splits [m] with [graph.split] into a description [g] and a mapping [s]
    from path to leaf; the keys it emits are the paths of [s] in sorted
    order and the children are the leaves of [s] in that same order, each
    wrapped with its key when [with_keys] is set; and [_module_unflatten]
    of that output, in any store, builds with [graph.merge] a module whose
    [graph.split] is [g] and [s] again. *)
Theorem module_flatten_round_trip h m with_keys (h0 : heap) :
  heap_closed h → is_Module h (VRef m) = true →
  ∃ g s children keys m' h',
    graph_split h m = Some (g, s) ∧
    _module_flatten graph_split h m with_keys = Some (children, (keys, g)) ∧
    Sorted path_le keys ∧
    zip keys (child_value <$> children) ≡ₚ map_to_list s ∧
    children = (if with_keys
                then zip_with KeyedChild keys (child_value <$> children)
                else PlainChild <$> (child_value <$> children)) ∧
    _module_unflatten graph_merge (keys, g) (child_value <$> children) h0
      = Some (m', h') ∧
    is_Module h' (VRef m') = true ∧
    graph_split h' m' = Some (g, s).
Proof.
  intros Hh Hm.
  destruct (graph_split_total h m Hh) as [[g s] Hsplit].
  { simpl in Hm. by destruct (h !! m). }
  destruct (graph_merge_split h m g s h0 Hsplit) as (m' & h' & Hmerge & Hsplit').
  exists g, s.
  destruct (module_flatten_unflatten graph_split graph_merge h m with_keys g s h0
              Hsplit) as (children & keys & Hflat & Hsorted & Hzip & Hun).
  exists children, keys, m', h'.
  split; [done|]. split; [done|]. split; [done|]. split; [done|].
  split; [|split; [by rewrite Hun|split; [|done]]].
  - unfold _module_flatten in Hflat. rewrite Hsplit in Hflat.
    injection Hflat as <- <-.
    set (key_values := merge_sort entry_le (map_to_list s)).
    rewrite flatten_children_keys.
    assert (child_value <$> (if with_keys
                             then zip_with KeyedChild key_values.*1 key_values.*2
                             else PlainChild <$> key_values.*2)
            = key_values.*2) as ->; [|done].
    clearbody key_values.
    destruct with_keys; induction key_values as [|[k v] kvs IH]; csimpl;
      by f_equal.
  - apply (graph_split_Module _ _ _ _ Hsplit').
    by apply (graph_split_Module _ _ _ _ Hsplit).
Qed.

Lemma module_flatten_round_trip_witness :
  ∃ g s children keys m' h',
    graph_split block_heap 1%positive = Some (g, s) ∧
    _module_flatten graph_split block_heap 1%positive true
      = Some (children, (keys, g)) ∧
    Sorted path_le keys ∧
    zip keys (child_value <$> children) ≡ₚ map_to_list s ∧
    children = zip_with KeyedChild keys (child_value <$> children) ∧
    _module_unflatten graph_merge (keys, g) (child_value <$> children) ∅
      = Some (m', h') ∧
    is_Module h' (VRef m') = true ∧
    graph_split h' m' = Some (g, s).
Proof.
  apply (module_flatten_round_trip block_heap 1%positive true ∅).
  - apply (bool_decide_unpack _). vm_compute. exact I.
  - vm_compute; reflexivity.
Defined.

(** * Further properties *)

(** ** [first_from] over concatenated arguments *)

(** X1: [first_from] over two argument lists, one after the other: the
    first list decides when it holds an argument that is not [None], and
    otherwise the second does, the error included. *)
Lemma first_from_app {A} (args1 args2 : list (option A)) error_msg :
  first_from (args1 ++ args2) error_msg
  = match first_from args1 error_msg with
    | Ok a => Ok a
    | Raise _ => first_from args2 error_msg
    end.
Proof.
  induction args1 as [|[a|] args1 IH]; simpl; [done|done|apply IH].
Qed.

(** ** [sow]: outcomes *)

(** X2: the outcomes of [sow].  Whenever it raises, the store is left
    as it was; and it returns exactly when [name] is no attribute yet and
    [reduce_fn(init_fn(), value)] returns, or [name] holds a [Variable] of
    exactly the type asked for and [reduce_fn] returns on its value. *)
Lemma sow_outcome h m T name v reduce_fn init_fn :
  let run := sow m T name v reduce_fn init_fn h in
  (∀ e, run.1 = Raise e → run.2 = h) ∧
  (run.1 = Ok tt ↔
   (getattr h m name = None ∧
    ∃ r, reduce_fn (init_fn tt) v = Ok r) ∨
   (∃ variable a raw r,
      getattr h m name = Some variable ∧
      as_Variable h variable = Some (a, T, raw) ∧
      reduce_fn raw v = Ok r)).
Proof.
  unfold sow. simpl.
  destruct (getattr h m name) as [variable|] eqn:Hget.
  - destruct (as_Variable h variable) as [[[a ty] raw]|] eqn:Hvar; simpl.
    + destruct (String.eqb ty T) eqn:HT; simpl.
      * apply String.eqb_eq in HT as ->.
        destruct (reduce_fn raw v) as [r|e] eqn:Hred; simpl.
        -- split; [done|]. split; [|done]. intros _. right. by eexists _, _, _, _.
        -- split; [done|]. split; [done|].
           intros [[? _]|(? & ? & ? & ? & [= <-] & Hv & Hr)]; [done|].
           rewrite Hvar in Hv. injection Hv as <- <-. by rewrite Hred in Hr.
      * apply String.eqb_neq in HT.
        split; [done|]. split; [done|].
        intros [[? _]|(? & ? & ? & ? & [= <-] & Hv & _)]; [done|].
        rewrite Hvar in Hv. by injection Hv as <- <- <-.
    + split; [done|]. split; [done|].
      intros [[? _]|(? & ? & ? & ? & [= <-] & Hv & _)]; [done|].
      by rewrite Hvar in Hv.
  - destruct (reduce_fn (init_fn tt) v) as [r|e] eqn:Hred; simpl.
    + split; [done|]. split; [|done]. intros _. left. split; [done|by eexists].
    + split; [done|]. split; [done|].
      by intros [[_ [r Hr]]|(? & ? & ? & ? & ? & _)].
Qed.

(** A successful [sow] leaves [name] holding a [Variable] of the type
    asked for, with the reduced value. *)
Lemma sow_Ok h m cls vars T name v reduce_fn init_fn h1 :
  h !! m = Some (ObjectInstance cls vars) →
  sow m T name v reduce_fn init_fn h = (Ok tt, h1) →
  ∃ a r vars1,
    getattr h1 m name = Some (VRef a) ∧
    h1 !! a = Some (VariableInstance T r) ∧
    h1 !! m = Some (ObjectInstance cls vars1) ∧
    reduce_fn (match getattr h m name ≫= as_Variable h with
               | Some (_, _, raw) => raw
               | None => init_fn tt
               end) v = Ok r.
Proof.
  intros Hm. unfold sow.
  destruct (getattr h m name) as [variable|] eqn:Hget; simpl.
  - destruct (as_Variable h variable) as [[[a ty] raw]|] eqn:Hvar; [|done].
    destruct (String.eqb ty T) eqn:HT; simpl; [|done].
    apply String.eqb_eq in HT as ->.
    destruct (reduce_fn raw v) as [r|e] eqn:Hred; [|done].
    intros [= <-].
    destruct variable as [| | | | | |a']; try done. simpl in Hvar.
    destruct (h !! a') as [[|ty' raw']|] eqn:Ha; try done.
    injection Hvar as -> -> ->.
    assert (a ≠ m) as Hne by (intros ->; congruence).
    exists a, r, vars. split; [by rewrite getattr_insert_other|].
    split; [apply lookup_insert_eq|]. split; [by rewrite lookup_insert_ne|done].
  - destruct (reduce_fn (init_fn tt) v) as [r|e] eqn:Hred; [|done].
    intros [= <-].
    set (a := fresh (dom h)).
    assert (a ∉ dom h) as Hfresh by apply is_fresh.
    assert (a ≠ m) as Hne.
    { intros ->. apply Hfresh. by apply elem_of_dom_2 in Hm. }
    assert (<[a:=VariableInstance T r]> h !! m
            = Some (ObjectInstance cls vars)) as Hm' by by rewrite lookup_insert_ne.
    exists a, r, (<[name := VRef a]> vars).
    split; [by eapply getattr_setattr_eq|].
    split; [rewrite lookup_setattr_ne by done; apply lookup_insert_eq|].
    split; [by eapply lookup_setattr_eq|done].
Qed.

Lemma sow_all_next vs : ∀ h m cls vars T name reduce_fn init_fn a raw,
  h !! m = Some (ObjectInstance cls vars) →
  getattr h m name = Some (VRef a) →
  h !! a = Some (VariableInstance T raw) →
  match reduce_all reduce_fn raw vs with
  | Ok r =>
      ∃ h', sow_all m T name reduce_fn init_fn vs h = (Ok tt, h') ∧
            getattr h' m name = Some (VRef a) ∧
            h' !! a = Some (VariableInstance T r)
  | Raise e => (sow_all m T name reduce_fn init_fn vs h).1 = Raise e
  end.
Proof.
  induction vs as [|v vs IH];
    intros h m cls vars T name reduce_fn init_fn a raw Hm Hget Ha; simpl.
  - by exists h.
  - assert (a ≠ m) as Hne by (intros ->; congruence).
    unfold sow. rewrite Hget. simpl. rewrite Ha, String.eqb_refl. simpl.
    destruct (reduce_fn raw v) as [r|e]; [|done].
    apply (IH _ _ cls vars).
    + by rewrite lookup_insert_ne.
    + by rewrite getattr_insert_other.
    + apply lookup_insert_eq.
Qed.

(** X3: [sow] folds: sowing [v1, ..., vk] under a fresh name leaves a
    [Variable] of type [T] holding
    [reduce_fn(... reduce_fn(reduce_fn(init_fn(), v1), v2) ..., vk)], and
    the first [reduce_fn] that raises ends the run with its error. *)
Theorem sow_all_reduces h m cls vars T name reduce_fn init_fn v1 vs :
  h !! m = Some (ObjectInstance cls vars) →
  hasattr h m name = false →
  (∀ r, reduce_all reduce_fn (init_fn tt) (v1 :: vs) = Ok r →
     ∃ hk a,
       sow_all m T name reduce_fn init_fn (v1 :: vs) h = (Ok tt, hk) ∧
       getattr hk m name = Some (VRef a) ∧
       hk !! a = Some (VariableInstance T r)) ∧
  (∀ e, reduce_all reduce_fn (init_fn tt) (v1 :: vs) = Raise e →
     (sow_all m T name reduce_fn init_fn (v1 :: vs) h).1 = Raise e).
Proof.
  intros Hm Hno. apply hasattr_false in Hno. simpl.
  destruct (sow m T name v1 reduce_fn init_fn h) as [[[]|e] h1] eqn:Hsow.
  - destruct (sow_Ok _ _ _ _ _ _ _ _ _ _ Hm Hsow)
      as (a & r & vars1 & Hget1 & Ha1 & Hm1 & Hred).
    rewrite Hno in Hred. simpl in Hred. rewrite Hred.
    pose proof (sow_all_next vs _ _ _ _ _ _ reduce_fn init_fn _ _ Hm1 Hget1 Ha1)
      as Hnext.
    destruct (reduce_all reduce_fn r vs) as [r'|e].
    + split; [|done]. intros ? [= <-].
      destruct Hnext as (h' & ? & ? & ?). by exists h', a.
    + split; [done|]. by intros ? [= <-].
  - unfold sow in Hsow. rewrite Hno in Hsow.
    destruct (reduce_fn (init_fn tt) v1) as [r|e']; [done|].
    injection Hsow as <- <-. split; [done|]. by intros ? [= <-].
Qed.

Lemma sow_all_reduces_witness :
  ∃ hk a,
    sow_all 1%positive "Intermediate" "sum" add_reduce (λ _, VInt 0)
      [VInt 3; VInt 4] block_heap = (Ok tt, hk) ∧
    getattr hk 1%positive "sum" = Some (VRef a) ∧
    hk !! a = Some (VariableInstance "Intermediate" (VInt 7)).
Proof.
  refine (proj1 (sow_all_reduces block_heap 1%positive _ _ "Intermediate"
                   "sum" add_reduce (λ _, VInt 0) (VInt 3) [VInt 4] _ _)
                _ _);
    vm_compute; reflexivity.
Defined.

(** X4: [sow] touches nothing but the attribute [name] of [self] and the
    [Variable] it holds: the other attributes of [self], every other
    object of the store, and which objects are modules stay as they are. *)
Theorem sow_frame h m cls vars T name v reduce_fn init_fn :
  h !! m = Some (ObjectInstance cls vars) →
  let h' := (sow m T name v reduce_fn init_fn h).2 in
  (∀ n, n ≠ name → getattr h' m n = getattr h m n) ∧
  (∀ b o, h !! b = Some o → b ≠ m → getattr h m name ≠ Some (VRef b) →
          h' !! b = Some o) ∧
  (∃ vars', h' !! m = Some (ObjectInstance cls vars')) ∧
  (∀ b, is_Module h' (VRef b) = is_Module h (VRef b)).
Proof.
  intros Hm. unfold sow.
  destruct (getattr h m name) as [variable|] eqn:Hget; simpl.
  - destruct (as_Variable h variable) as [[[a ty] raw]|] eqn:Hvar; simpl;
      [|by eauto].
    destruct (String.eqb ty T); simpl; [|by eauto].
    destruct (reduce_fn raw v) as [r|e]; simpl; [|by eauto].
    destruct variable as [| | | | | |a']; try done. simpl in Hvar.
    destruct (h !! a') as [[|ty' raw']|] eqn:Ha; try done.
    injection Hvar as -> -> ->.
    assert (a ≠ m) as Hne by (intros ->; congruence).
    split; [|split; [|split]].
    + intros n _. by rewrite getattr_insert_other.
    + intros b o Hb _ Hba. rewrite lookup_insert_ne; [done|congruence].
    + exists vars. by rewrite lookup_insert_ne.
    + intros b. simpl. destruct (decide (a = b)) as [<-|Hab].
      * by rewrite lookup_insert_eq, Ha.
      * by rewrite lookup_insert_ne.
  - destruct (reduce_fn (init_fn tt) v) as [r|e]; simpl; [|by eauto].
    set (a := fresh (dom h)).
    assert (a ∉ dom h) as Hfresh by apply is_fresh.
    assert (a ≠ m) as Hne.
    { intros ->. apply Hfresh. by apply elem_of_dom_2 in Hm. }
    assert (<[a:=VariableInstance T r]> h !! m
            = Some (ObjectInstance cls vars)) as Hm' by by rewrite lookup_insert_ne.
    split; [|split; [|split]].
    + intros n Hn. rewrite getattr_setattr_ne by done.
      by rewrite getattr_insert_other.
    + intros b o Hb Hbm _. rewrite lookup_setattr_ne by done.
      rewrite lookup_insert_ne; [done|].
      intros ->. apply Hfresh. by apply elem_of_dom_2 in Hb.
    + eexists. by eapply lookup_setattr_eq.
    + intros b. simpl. destruct (decide (m = b)) as [<-|Hmb].
      * erewrite lookup_setattr_eq by done. by rewrite Hm.
      * rewrite lookup_setattr_ne by done.
        destruct (decide (a = b)) as [<-|Hab].
        -- rewrite lookup_insert_eq. apply not_elem_of_dom in Hfresh.
           by rewrite Hfresh.
        -- by rewrite lookup_insert_ne.
Qed.

Lemma sow_frame_witness :
  getattr (sow 2%positive "Intermediate" "i" (VInt 1) tuple_reduce tuple_init
             block_heap).2 2%positive "kernel"
  = getattr block_heap 2%positive "kernel".
Proof.
  refine (proj1 (sow_frame block_heap 2%positive _ _ "Intermediate" "i"
                   (VInt 1) tuple_reduce tuple_init _) "kernel" _).
  - vm_compute; reflexivity.
  - discriminate.
Defined.

(** X5: sowing under one name with two [Variable] types: once a [sow] has
    succeeded, a [sow] under the same name with another type raises a
    [ValueError] and changes nothing. *)
Theorem sow_type_conflict h m cls vars T T' name v v'
    reduce_fn init_fn reduce_fn' init_fn' h1 :
  h !! m = Some (ObjectInstance cls vars) →
  sow m T name v reduce_fn init_fn h = (Ok tt, h1) →
  T' ≠ T →
  ∃ msg, sow m T' name v' reduce_fn' init_fn' h1 = (Raise (ValueError msg), h1).
Proof.
  intros Hm Hsow HT.
  destruct (sow_Ok _ _ _ _ _ _ _ _ _ _ Hm Hsow)
    as (a & r & vars1 & Hget1 & Ha1 & _).
  unfold sow. rewrite Hget1. simpl. rewrite Ha1.
  assert (String.eqb T T' = false) as ->.
  { apply String.eqb_neq. congruence. }
  simpl. by eexists.
Qed.

Lemma sow_type_conflict_witness :
  ∃ msg,
    sow 1%positive "Param" "i" (VInt 2) tuple_reduce tuple_init
      (sow 1%positive "Intermediate" "i" (VInt 1) tuple_reduce tuple_init
         block_heap).2
    = (Raise (ValueError msg),
       (sow 1%positive "Intermediate" "i" (VInt 1) tuple_reduce tuple_init
          block_heap).2).
Proof.
  refine (sow_type_conflict block_heap 1%positive _ _ "Intermediate" "Param"
            "i" (VInt 1) (VInt 2) tuple_reduce tuple_init tuple_reduce
            tuple_init _ _ _ _).
  - vm_compute; reflexivity.
  - vm_compute; reflexivity.
  - discriminate.
Defined.

Lemma sow_outcome_witness :
  (sow 2%positive "Intermediate" "kernel" (VInt 1) tuple_reduce tuple_init
     block_heap).2 = block_heap.
Proof.
  refine (proj1 (sow_outcome block_heap 2%positive "Intermediate" "kernel"
                   (VInt 1) tuple_reduce tuple_init) _ _).
  vm_compute; reflexivity.
Defined.

(** ** [set_attributes]: no attributes, and what the filters amount to *)

Lemma for_predicates_nil predicates path module st :
  for_predicates predicates path module [] st = st.
Proof.
  induction predicates as [|p ps IH]; simpl; [done|].
  by destruct (match st.2 !! module with Some o => p path module o | None => false end).
Qed.

Lemma for_predicates_None predicates path module attributes remaining (h : heap) :
  h !! module = None →
  for_predicates predicates path module attributes (remaining, h)
  = (remaining, h).
Proof.
  intros Hm. induction predicates as [|p ps IH]; simpl; [done|].
  by rewrite Hm.
Qed.

(** X6: called with no keyword attributes, [set_attributes] changes nothing
    and does not raise, whatever the filters and [raise_if_not_found]. *)
Theorem set_attributes_no_attributes h self filters raise_if_not_found :
  set_attributes self filters raise_if_not_found [] h = (Ok tt, h).
Proof.
  unfold set_attributes. simpl.
  assert (∀ (L : list (PathParts * addr)) predicates (st : gset string * heap),
            foldl (λ st '(path, module),
                     for_predicates predicates path module [] st) st L = st)
    as Hfold.
  { induction L as [|[path module] L IH]; intros predicates st; simpl; [done|].
    by rewrite for_predicates_nil. }
  rewrite Hfold. by rewrite bool_decide_eq_false_2 by (intros Hne; by apply Hne).
Qed.

Lemma for_modules_ext predicates predicates' attributes
    (L : list (PathParts * addr)) (h0 : heap) :
  ∀ remaining (h : heap),
  NoDup L.*2 →
  (∀ path a, (path, a) ∈ L → h !! a = h0 !! a) →
  (∀ path a o, (path, a) ∈ L → h0 !! a = Some o →
     selected predicates path a o = selected predicates' path a o) →
  foldl (λ st '(path, module),
           for_predicates predicates path module attributes st)
        (remaining, h) L
  = foldl (λ st '(path, module),
             for_predicates predicates' path module attributes st)
          (remaining, h) L.
Proof.
  induction L as [|[path a] L IH]; intros remaining h Hnd Hh Hsel; simpl;
    [done|].
  simpl in Hnd. apply NoDup_cons in Hnd as [Ha Hnd].
  destruct (h !! a) as [o|] eqn:Ho.
  - rewrite !(for_predicates_obj _ _ _ _ _ _ _ Ho).
    assert (h0 !! a = Some o) as Ho0.
    { rewrite <- Ho. symmetry. apply (Hh path). left. }
    rewrite <- (Hsel path a o) by (done || left).
    destruct (selected predicates path a o).
    + apply IH; [done| |].
      * intros p b Hb. rewrite lookup_insert_ne.
        -- apply (Hh p). by right.
        -- intros <-. apply Ha. apply list_elem_of_fmap. by exists (p, a).
      * intros p b o' Hb. apply Hsel. by right.
    + apply IH; [done| |].
      * intros p b Hb. apply (Hh p). by right.
      * intros p b o' Hb. apply Hsel. by right.
  - rewrite !for_predicates_None by done.
    apply IH; [done| |].
    + intros p b Hb. apply (Hh p). by right.
    + intros p b o' Hb. apply Hsel. by right.
Qed.

(** X7: the filters act as a disjunction: [set_attributes] depends on them
    only through which yielded modules satisfy at least one, so their
    order and repetitions do not matter. *)
Theorem set_attributes_filters_any h self filters filters'
    raise_if_not_found attributes :
  (∀ path module o,
     (path, module) ∈ iter_modules h self → h !! module = Some o →
     selected (predicates_of filters) path module o
     = selected (predicates_of filters') path module o) →
  set_attributes self filters raise_if_not_found attributes h
  = set_attributes self filters' raise_if_not_found attributes h.
Proof.
  intros Hsel. unfold set_attributes.
  change (to_predicate <$> match filters with [] => [FBool true] | _ => filters end)
    with (predicates_of filters).
  change (to_predicate <$> match filters' with [] => [FBool true] | _ => filters' end)
    with (predicates_of filters').
  by rewrite (for_modules_ext (predicates_of filters) (predicates_of filters')
                attributes (iter_modules h self) h _ h
                (iter_modules_NoDup h self) (λ _ _ _, eq_refl) Hsel).
Qed.

Lemma set_attributes_filters_any_witness :
  set_attributes 1%positive [of_type "Dropout"; of_type "BatchNorm"] true
    [("deterministic", VBool true)] block_heap
  = set_attributes 1%positive [of_type "BatchNorm"; of_type "Dropout"] true
      [("deterministic", VBool true)] block_heap.
Proof.
  apply (set_attributes_filters_any block_heap 1%positive
           [of_type "Dropout"; of_type "BatchNorm"]
           [of_type "BatchNorm"; of_type "Dropout"]).
  intros path module o _ _. simpl. rewrite !orb_false_r. apply orb_comm.
Defined.

(** ** [train] and [eval]: keywords passed twice *)

(** X8: [train] and [eval] called with extra keyword attributes raise exactly
    when these name [deterministic], [use_running_average] or
    [raise_if_not_found], which the call passes itself: a [TypeError],
    raised before anything is set.  With any other attributes they
    return, found or not. *)
Theorem train_eval_keywords h self attributes :
  (Exists (λ k, k ∈ mode_keywords) attributes.*1 →
   (∃ msg, train self attributes h = (Raise (TypeError msg), h)) ∧
   (∃ msg, eval self attributes h = (Raise (TypeError msg), h))) ∧
  (¬ Exists (λ k, k ∈ mode_keywords) attributes.*1 →
   (train self attributes h).1 = Ok tt ∧
   (eval self attributes h).1 = Ok tt).
Proof.
  assert (∀ fixed r,
            fixed.*1 = ["deterministic"; "use_running_average"] →
            call_set_attributes self fixed attributes r h
            = if bool_decide (Exists (λ k, k ∈ mode_keywords) attributes.*1)
              then (Raise (TypeError
                             (Msg "got multiple values for keyword argument")),
                    h)
              else set_attributes self [] r (fixed ++ attributes) h) as Hcall.
  { intros fixed r Hfixed. unfold call_set_attributes. by rewrite Hfixed. }
  unfold train, eval. rewrite !Hcall by done.
  split.
  - intros Hclash. rewrite !bool_decide_eq_true_2 by done.
    split; by eexists.
  - intros Hnone. rewrite !bool_decide_eq_false_2 by done.
    split.
    + destruct (set_attributes_run h self [] false
                  ([("deterministic", VBool false);
                    ("use_running_average", VBool false)] ++ attributes))
        as (remaining & h' & -> & _). simpl. by rewrite andb_false_r.
    + destruct (set_attributes_run h self [] false
                  ([("deterministic", VBool true);
                    ("use_running_average", VBool true)] ++ attributes))
        as (remaining & h' & -> & _). simpl. by rewrite andb_false_r.
Qed.

Lemma train_eval_keywords_witness :
  (∃ msg, train 1%positive [("deterministic", VBool true)] block_heap
          = (Raise (TypeError msg), block_heap)) ∧
  (train 1%positive [("rate", VOther "float")] block_heap).1 = Ok tt.
Proof.
  split.
  - refine (proj1 (proj1 (train_eval_keywords block_heap 1%positive
                            [("deterministic", VBool true)]) _)).
    apply (bool_decide_unpack _). vm_compute. exact I.
  - refine (proj1 (proj2 (train_eval_keywords block_heap 1%positive
                            [("rate", VOther "float")]) _)).
    apply (bool_decide_unpack _). vm_compute. exact I.
Defined.

Lemma same_graph_node_addr h h' v :
  same_graph h h' → node_addr h v = node_addr h' v.
Proof.
  intros Hsame. unfold node_addr, node_dict.
  destruct v as [| | | | | |a]; try done.
  specialize (Hsame a).
  destruct (h !! a) as [[cls vars|ty raw]|], (h' !! a) as [[cls' vars'|ty' raw']|];
    simpl in *; done.
Qed.

Lemma same_graph_as_Module h h' v :
  same_graph h h' → as_Module h v = as_Module h' v.
Proof.
  intros Hsame. unfold as_Module, is_Module.
  destruct v as [| | | | | |a]; try done.
  specialize (Hsame a).
  destruct (h !! a) as [[cls vars|ty raw]|], (h' !! a) as [[cls' vars'|ty' raw']|];
    simpl in *; try done.
  by injection Hsame as <- _.
Qed.

Lemma yielded_modules_app h out1 out2 :
  yielded_modules h (out1 ++ out2)
  = yielded_modules h out1 ++ yielded_modules h out2.
Proof. apply omap_app. Qed.

Lemma yielded_modules_singleton h path v :
  yielded_modules h [(path, v)]
  = match as_Module h v with Some a => [(path, a)] | None => [] end.
Proof. unfold yielded_modules. simpl. by destruct (as_Module h v). Qed.

Lemma StronglySorted_filter {A} (R : relation A) (P : A → Prop)
    `{∀ x, Decision (P x)} l :
  StronglySorted R l → StronglySorted R (filter P l).
Proof.
  induction 1 as [|x l Hl IH Hx]; [constructor|].
  rewrite filter_cons. destruct (decide (P x)); [|done].
  constructor; [done|].
  apply Forall_forall. intros y [_ Hy]%list_elem_of_filter.
  by eapply Forall_forall in Hx.
Qed.

Lemma node_items_same h h' vars vars' :
  same_graph h h' →
  omap (node_addr h) vars = omap (node_addr h') vars' →
  node_items h (merge_sort item_le (map_to_list vars))
  = node_items h' (merge_sort item_le (map_to_list vars')).
Proof.
  intros Hsame Hnodes. unfold node_items.
  assert (∀ (g : heap) (vs : gmap string value),
            NoDup (filter (λ kv : Key * value, is_Some (node_addr g kv.2))
                     (merge_sort item_le (map_to_list vs))).*1) as Hnd.
  { intros g vs. eapply sublist_NoDup;
      [|apply fmap_sublist, sublist_filter].
    rewrite merge_sort_Permutation. apply NoDup_fst_map_to_list. }
  apply (StronglySorted_unique_strong item_le).
  - intros [k1 v1] [k2 v2] H1 H2 Hle1 Hle2.
    assert (k1 = k2) as <- by by apply String.leb_antisym.
    apply list_elem_of_filter in H1 as [[b1 Hb1] H1].
    apply list_elem_of_filter in H2 as [[b2 Hb2] H2].
    rewrite merge_sort_Permutation in H1, H2.
    apply elem_of_map_to_list in H1, H2. simpl in *.
    assert (omap (node_addr h) vars !! k1 = Some b1) as E1.
    { rewrite lookup_omap, H1. done. }
    assert (omap (node_addr h') vars' !! k1 = Some b2) as E2.
    { rewrite lookup_omap, H2. done. }
    rewrite Hnodes, E2 in E1. injection E1 as ->.
    apply node_addr_Some in Hb1 as [-> _]. by apply node_addr_Some in Hb2 as [-> _].
  - apply StronglySorted_filter, (Sorted_StronglySorted item_le),
      (Sorted_merge_sort item_le).
  - apply StronglySorted_filter, (Sorted_StronglySorted item_le),
      (Sorted_merge_sort item_le).
  - apply NoDup_Permutation.
    + eapply NoDup_fmap_1, Hnd.
    + eapply NoDup_fmap_1, Hnd.
    + assert (∀ (g g' : heap) (vs vs' : gmap string value) x,
                same_graph g g' →
                omap (node_addr g) vs = omap (node_addr g') vs' →
                x ∈ filter (λ kv : Key * value, is_Some (node_addr g kv.2))
                      (merge_sort item_le (map_to_list vs)) →
                x ∈ filter (λ kv : Key * value, is_Some (node_addr g' kv.2))
                      (merge_sort item_le (map_to_list vs'))) as Hincl.
      { intros g g' vs vs' [k v] Hg Hvs [[b Hb] Hin]%list_elem_of_filter.
        rewrite merge_sort_Permutation in Hin.
        apply elem_of_map_to_list in Hin. simpl in *.
        assert (omap (node_addr g') vs' !! k = Some b) as E.
        { rewrite <- Hvs, lookup_omap, Hin. done. }
        rewrite lookup_omap in E.
        destruct (vs' !! k) as [v'|] eqn:Hv'; [|done]. simpl in E.
        pose proof Hb as Hb'. rewrite (same_graph_node_addr g g') in Hb' by done.
        apply node_addr_Some in Hb' as [-> _].
        apply node_addr_Some in E as [-> E].
        apply list_elem_of_filter. split.
        - simpl. exists b. apply node_addr_Some. by split.
        - rewrite merge_sort_Permutation. by apply elem_of_map_to_list. }
      intros x. split; [by apply Hincl|].
      apply Hincl; [|done]. intros a. symmetry. apply Hsame.
Qed.

Lemma as_Module_not_node h v :
  node_addr h v = None → as_Module h v = None.
Proof.
  intros Hv. destruct (as_Module h v) as [a|] eqn:Ha; [|done].
  apply as_Module_node_addr in Ha. congruence.
Qed.

Lemma _iter_graph_leaf h n v V p out V' :
  node_addr h v = None →
  _iter_graph n h v V p = Some (out, V') →
  V' = V ∧ yielded_modules h out = [].
Proof.
  intros Hv. destruct n as [|n]; [done|]. simpl.
  pose proof Hv as Hnone. unfold node_addr in Hnone.
  destruct (node_dict h v) as [[a items]|]; [done|].
  intros [= <- <-]. split; [done|]. unfold yielded_modules. simpl.
  by rewrite as_Module_not_node.
Qed.

Lemma iter_items_skip h rec :
  (∀ v V p out V', node_addr h v = None → rec v V p = Some (out, V') →
                   V' = V ∧ yielded_modules h out = []) →
  ∀ items V path out V',
    iter_items rec items V path = Some (out, V') →
    ∃ out2, iter_items rec (node_items h items) V path = Some (out2, V') ∧
            yielded_modules h out2 = yielded_modules h out.
Proof.
  intros Hleaf. induction items as [|[key v] items IH];
    intros V path out V' Hrun; simpl in Hrun.
  - injection Hrun as <- <-. by exists [].
  - destruct (rec v V (path ++ [key])) as [[out1 V1]|] eqn:Hv; [|done].
    destruct (iter_items rec items V1 path) as [[out2 V2]|] eqn:Hrest; [|done].
    injection Hrun as <- <-.
    destruct (IH _ _ _ _ Hrest) as (out3 & Hrun3 & Hmods).
    unfold node_items. rewrite filter_cons. simpl.
    destruct (decide (is_Some (node_addr h v))) as [Hnode|Hnode].
    + simpl. rewrite Hv. fold (node_items h items). rewrite Hrun3.
      eexists. split; [done|]. by rewrite !yielded_modules_app, Hmods.
    + apply eq_None_not_Some in Hnode.
      destruct (Hleaf _ _ _ _ _ Hnode Hv) as [-> Hnil].
      exists out3. split; [done|].
      by rewrite yielded_modules_app, Hnil, Hmods.
Qed.

Lemma iter_items_same h h' rec rec' :
  (∀ v V p out V' out2 V2,
     rec v V p = Some (out, V') → rec' v V p = Some (out2, V2) →
     yielded_modules h out = yielded_modules h' out2 ∧ V' = V2) →
  ∀ L V path out V' out2 V2,
    iter_items rec L V path = Some (out, V') →
    iter_items rec' L V path = Some (out2, V2) →
    yielded_modules h out = yielded_modules h' out2 ∧ V' = V2.
Proof.
  intros Hrec. induction L as [|[key v] L IH];
    intros V path out V' out2 V2 Hrun Hrun'; simpl in *.
  - injection Hrun as <- <-. by injection Hrun' as <- <-.
  - destruct (rec v V (path ++ [key])) as [[o1 V1]|] eqn:Hv; [|done].
    destruct (iter_items rec L V1 path) as [[o2 V3]|] eqn:Hrest; [|done].
    destruct (rec' v V (path ++ [key])) as [[o1' V1']|] eqn:Hv'; [|done].
    destruct (iter_items rec' L V1' path) as [[o2' V3']|] eqn:Hrest'; [|done].
    injection Hrun as <- <-. injection Hrun' as <- <-.
    destruct (Hrec _ _ _ _ _ _ _ Hv Hv') as [Hm1 <-].
    destruct (IH _ _ _ _ _ _ Hrest Hrest') as [Hm2 <-].
    by rewrite !yielded_modules_app, Hm1, Hm2.
Qed.

(** The modules a traversal yields, and their order, depend on the graph
    of nodes only. *)
Lemma _iter_graph_same h h' :
  same_graph h h' →
  ∀ n n' node V path out V' out2 V2,
    _iter_graph n h node V path = Some (out, V') →
    _iter_graph n' h' node V path = Some (out2, V2) →
    yielded_modules h out = yielded_modules h' out2 ∧ V' = V2.
Proof.
  intros Hsame. induction n as [|n IH];
    intros n' node V path out V' out2 V2 Hrun Hrun'; [done|].
  destruct n' as [|n']; [done|]. simpl in Hrun, Hrun'.
  pose proof (same_graph_as_Module h h' node Hsame) as Hmod.
  unfold node_dict in Hrun, Hrun'.
  destruct node as [| | | | | |a];
    try (injection Hrun as <- <-; injection Hrun' as <- <-; done).
  pose proof (Hsame a) as Ha.
  destruct (h !! a) as [[cls vars|ty raw]|] eqn:Hha,
           (h' !! a) as [[cls' vars'|ty' raw']|] eqn:Hha'; simpl in Ha;
    try done;
    try (injection Hrun as <- <-; injection Hrun' as <- <-;
         by rewrite !yielded_modules_singleton, Hmod).
  injection Ha as <- Hvars.
  destruct (decide (a ∈ V)).
  { injection Hrun as <- <-. by injection Hrun' as <- <-. }
  destruct (iter_items _ _ _ _) as [[o1 V1]|] eqn:Hitems in Hrun; [|done].
  destruct (iter_items _ _ _ _) as [[o1' V1']|] eqn:Hitems' in Hrun'; [|done].
  injection Hrun as <- <-. injection Hrun' as <- <-.
  apply (iter_items_skip h) in Hitems as (o2 & Hitems & Hm1);
    [|intros; by eapply _iter_graph_leaf].
  apply (iter_items_skip h') in Hitems' as (o2' & Hitems' & Hm1');
    [|intros; by eapply _iter_graph_leaf].
  rewrite (node_items_same h h' vars vars' Hsame Hvars) in Hitems.
  destruct (iter_items_same h h' _ _ (λ v, IH n' v) _ _ _ _ _ _ _ Hitems Hitems')
    as [Hm <-].
  split; [|done].
  by rewrite !yielded_modules_app, <- Hm1, <- Hm1', Hm,
    !yielded_modules_singleton, Hmod.
Qed.

Lemma iter_modules_same_graph h h' self :
  same_graph h h' → iter_modules h self = iter_modules h' self.
Proof.
  intros Hsame.
  destruct (iter_graph_run h (VRef self)) as (out & V & Hrun & Hout).
  destruct (iter_graph_run h' (VRef self)) as (out' & V' & Hrun' & Hout').
  unfold iter_modules. rewrite Hout, Hout'.
  by destruct (_iter_graph_same h h' Hsame _ _ _ _ _ _ _ _ _ Hrun Hrun').
Qed.

(** ** The graph of nodes under [sow] and [set_attributes] *)

Lemma node_addr_ext h h' :
  (∀ b, (∃ cls vars, h !! b = Some (ObjectInstance cls vars)) ↔
        (∃ cls vars, h' !! b = Some (ObjectInstance cls vars))) →
  ∀ v, node_addr h v = node_addr h' v.
Proof.
  intros Hnodes v.
  destruct (node_addr h v) as [a|] eqn:Hv.
  - apply node_addr_Some in Hv as [-> Ha]. symmetry.
    apply node_addr_Some. split; [done|]. by apply Hnodes.
  - destruct (node_addr h' v) as [a|] eqn:Hv'; [|done].
    apply node_addr_Some in Hv' as [-> Ha]. apply Hnodes in Ha.
    assert (node_addr h (VRef a) = Some a) as E by by apply node_addr_Some.
    congruence.
Qed.

Lemma node_part_ext h h' o :
  (∀ v, node_addr h v = node_addr h' v) → node_part h o = node_part h' o.
Proof.
  intros Hext. destruct o as [cls vars|]; [|done]. simpl. do 2 f_equal.
  apply omap_ext. intros ? ? _. apply Hext.
Qed.

Lemma same_graph_intro h h' :
  (∀ b, (∃ cls vars, h !! b = Some (ObjectInstance cls vars)) ↔
        (∃ cls vars, h' !! b = Some (ObjectInstance cls vars))) →
  (∀ a, h !! a ≫= node_part h = h' !! a ≫= node_part h) →
  same_graph h h'.
Proof.
  intros Hnodes Hparts a. rewrite Hparts.
  destruct (h' !! a) as [o|]; [|done]. simpl.
  apply node_part_ext, node_addr_ext, Hnodes.
Qed.

Lemma sow_same_graph h m cls vars T name v reduce_fn init_fn :
  h !! m = Some (ObjectInstance cls vars) →
  same_graph h (sow m T name v reduce_fn init_fn h).2.
Proof.
  intros Hm. unfold sow.
  destruct (getattr h m name) as [variable|] eqn:Hget; simpl.
  - destruct (as_Variable h variable) as [[[a ty] raw]|] eqn:Hvar; simpl;
      [|done].
    destruct (String.eqb ty T); simpl; [|done].
    destruct (reduce_fn raw v) as [r|e]; simpl; [|done].
    destruct variable as [| | | | | |a']; try done. simpl in Hvar.
    destruct (h !! a') as [[|ty' raw']|] eqn:Ha; try done.
    injection Hvar as -> -> ->.
    apply same_graph_intro.
    + intros b. destruct (decide (a = b)) as [<-|Hab].
      * rewrite lookup_insert_eq, Ha. split; by intros (? & ? & ?).
      * by rewrite lookup_insert_ne.
    + intros b. destruct (decide (a = b)) as [<-|Hab].
      * by rewrite lookup_insert_eq, Ha.
      * by rewrite lookup_insert_ne.
  - destruct (reduce_fn (init_fn tt) v) as [r|e]; simpl; [|done].
    set (a := fresh (dom h)).
    assert (a ∉ dom h) as Hfresh by apply is_fresh.
    apply not_elem_of_dom in Hfresh. clearbody a.
    assert (a ≠ m) as Hne by (intros ->; congruence).
    unfold setattr. rewrite lookup_insert_ne, Hm by done.
    assert (vars !! name = None) as Hname.
    { unfold getattr in Hget. rewrite Hm in Hget. by destruct (vars !! name). }
    apply same_graph_intro.
    + intros b. destruct (decide (m = b)) as [<-|Hmb].
      * rewrite lookup_insert_eq, Hm. split; intros _; by eexists _, _.
      * rewrite lookup_insert_ne by done.
        destruct (decide (a = b)) as [<-|Hab].
        -- rewrite lookup_insert_eq, Hfresh. split; by intros (? & ? & ?).
        -- by rewrite lookup_insert_ne.
    + intros b. destruct (decide (m = b)) as [<-|Hmb].
      * rewrite lookup_insert_eq, Hm. simpl. do 2 f_equal.
        rewrite omap_insert_None.
        -- symmetry. apply delete_id. by rewrite lookup_omap, Hname.
        -- destruct (node_addr h (VRef a)) as [a'|] eqn:E; [|done].
           apply node_addr_Some in E as [[= <-] (? & ? & E)]. congruence.
      * rewrite lookup_insert_ne by done.
        destruct (decide (a = b)) as [<-|Hab].
        -- by rewrite lookup_insert_eq, Hfresh.
        -- by rewrite lookup_insert_ne.
Qed.

Lemma update_obj_node_part h attributes : ∀ o,
  Forall (λ kv : string * value,
            node_addr h kv.2 = None ∧ obj_plain_attribute h kv.1 o) attributes →
  node_part h (update_obj attributes o) = node_part h o.
Proof.
  induction attributes as [|[name v] attributes IH]; intros o Hplain; simpl;
    [done|].
  apply Forall_cons in Hplain as [[Hv Hname] Hplain]. simpl in Hv, Hname.
  destruct (obj_hasattr o name); [|by apply IH].
  rewrite IH.
  - destruct o as [cls vars|]; [|done]. simpl in *. do 2 f_equal.
    rewrite omap_insert_None by done. apply delete_id.
    rewrite lookup_omap. by destruct (vars !! name).
  - eapply Forall_impl; [exact Hplain|]. intros [name' v'] [Hv' Hname'].
    split; [done|]. destruct o as [cls vars|]; [|done]. simpl in *.
    destruct (decide (name = name')) as [<-|Hne].
    + by rewrite lookup_insert_eq.
    + by rewrite lookup_insert_ne.
Qed.

Lemma set_attributes_same_graph h self filters raise_if_not_found attributes :
  plain_attributes h attributes →
  same_graph h (set_attributes self filters raise_if_not_found attributes h).2.
Proof.
  intros Hplain.
  set (h' := (set_attributes self filters raise_if_not_found attributes h).2).
  assert (∀ a, h' !! a = h !! a ∨
               ∃ o, h !! a = Some o ∧ h' !! a = Some (update_obj attributes o))
    as Hlookup.
  { intros a.
    destruct (set_attributes_lookup h self filters raise_if_not_found
                attributes a) as [Heq|(path & o & _ & Ho & _ & Ho')];
      [by left|right; by exists o]. }
  apply same_graph_intro.
  - intros b. destruct (Hlookup b) as [->|(o & Ho & ->)]; [done|].
    rewrite Ho. destruct o as [cls vars|ty raw].
    + destruct (update_obj_class attributes cls vars) as [vars' ->].
      split; intros _; by eexists _, _.
    + rewrite update_obj_Variable. done.
  - intros a. destruct (Hlookup a) as [->|(o & Ho & ->)]; [done|].
    rewrite Ho. simpl. symmetry. apply update_obj_node_part.
    eapply Forall_impl; [exact Hplain|]. intros [name v] [Hv Hname].
    split; [done|]. by apply (Hname a o).
Qed.

(** X9: [sow] leaves the module tree as it is: from any root, [iter_modules]
    yields the same modules under the same paths, in the same order,
    before and after. *)
Theorem sow_keeps_modules h m cls vars T name v reduce_fn init_fn root :
  h !! m = Some (ObjectInstance cls vars) →
  iter_modules (sow m T name v reduce_fn init_fn h).2 root
  = iter_modules h root.
Proof.
  intros Hm. symmetry. apply iter_modules_same_graph.
  by eapply sow_same_graph.
Qed.

Lemma sow_keeps_modules_witness :
  iter_modules (sow 3%positive "Intermediate" "i" (VInt 1) tuple_reduce
                  tuple_init block_heap).2 1%positive
  = iter_modules block_heap 1%positive.
Proof.
  refine (sow_keeps_modules block_heap 3%positive _ _ "Intermediate" "i"
            (VInt 1) tuple_reduce tuple_init 1%positive _).
  vm_compute; reflexivity.
Defined.

(** X10: [set_attributes] leaves the module tree as it is when the keyword
    attributes neither pass a graph node nor replace one: from any root,
    [iter_modules] yields the same modules under the same paths, in the
    same order, before and after. *)
Theorem set_attributes_keeps_modules h self filters raise_if_not_found
    attributes root :
  plain_attributes h attributes →
  iter_modules (set_attributes self filters raise_if_not_found attributes h).2
    root
  = iter_modules h root.
Proof.
  intros Hplain. symmetry. apply iter_modules_same_graph.
  by apply set_attributes_same_graph.
Qed.

Lemma set_attributes_keeps_modules_witness :
  iter_modules (set_attributes 1%positive [of_type "Dropout"] true
                  [("deterministic", VBool true)] block_heap).2 1%positive
  = iter_modules block_heap 1%positive.
Proof.
  apply (set_attributes_keeps_modules block_heap 1%positive
           [of_type "Dropout"] true [("deterministic", VBool true)]
           1%positive).
  apply (bool_decide_unpack _). vm_compute. exact I.
Defined.

(** ** One [set_attributes] after another *)

Lemma update_obj_vars attributes : ∀ cls vars,
  NoDup attributes.*1 →
  ∃ vars',
    update_obj attributes (ObjectInstance cls vars) = ObjectInstance cls vars' ∧
    ∀ n, vars' !! n
         = match (list_to_map attributes : gmap string value) !! n with
           | Some v =>
               if obj_hasattr (ObjectInstance cls vars) n then Some v
               else vars !! n
           | None => vars !! n
           end.
Proof.
  induction attributes as [|[name v] attributes IH]; intros cls vars Hnd.
  - exists vars. split; [done|]. intros n. simpl. by rewrite lookup_empty.
  - simpl in Hnd. apply NoDup_cons in Hnd as [Hname Hnd].
    assert ((list_to_map attributes : gmap string value) !! name = None)
      as Hnone by by apply not_elem_of_list_to_map_1.
    simpl. destruct (obj_hasattr (ObjectInstance cls vars) name) eqn:Hhas.
    + destruct (IH cls (<[name := v]> vars) Hnd) as (vars' & -> & Hvars').
      exists vars'. split; [done|]. intros n. rewrite Hvars'.
      destruct (decide (name = n)) as [<-|Hne].
      * by rewrite Hnone, !lookup_insert_eq, Hhas.
      * rewrite !lookup_insert_ne by done.
        change (ObjectInstance cls (<[name:=v]> vars))
          with (obj_setattr name v (ObjectInstance cls vars)).
        by rewrite obj_hasattr_setattr.
    + destruct (IH cls vars Hnd) as (vars' & -> & Hvars').
      exists vars'. split; [done|]. intros n. rewrite Hvars'.
      destruct (decide (name = n)) as [<-|Hne].
      * by rewrite Hnone, lookup_insert_eq, Hhas.
      * by rewrite lookup_insert_ne.
Qed.

Lemma update_obj_override attributes attributes' o :
  NoDup attributes.*1 → NoDup attributes'.*1 →
  attributes.*1 ⊆ attributes'.*1 →
  update_obj attributes' (update_obj attributes o) = update_obj attributes' o.
Proof.
  intros Hnd Hnd' Hsub. destruct o as [cls vars|ty raw];
    [|by rewrite !update_obj_Variable].
  destruct (update_obj_vars attributes cls vars Hnd) as (vars1 & E1 & Hvars1).
  destruct (update_obj_vars attributes' cls vars1 Hnd') as (vars2 & E2 & Hvars2).
  destruct (update_obj_vars attributes' cls vars Hnd') as (vars3 & E3 & Hvars3).
  rewrite E1, E2, E3. f_equal. apply map_eq. intros n.
  rewrite Hvars2, Hvars3, <- E1, update_obj_hasattr, Hvars1.
  destruct ((list_to_map attributes' : gmap string value) !! n) as [v'|] eqn:Hn'.
  - destruct (obj_hasattr (ObjectInstance cls vars) n); [done|].
    by destruct ((list_to_map attributes : gmap string value) !! n).
  - destruct ((list_to_map attributes : gmap string value) !! n) as [w|] eqn:Hn;
      [|done].
    apply elem_of_list_to_map_2 in Hn.
    apply not_elem_of_list_to_map in Hn'. exfalso. apply Hn', Hsub.
    apply list_elem_of_fmap. by exists (n, w).
Qed.

(** A call without filters whose keywords include those of an earlier
    call without filters makes the earlier call unobservable. *)
Lemma set_attributes_override h self r r' attributes attributes' :
  NoDup attributes.*1 → NoDup attributes'.*1 →
  attributes.*1 ⊆ attributes'.*1 →
  plain_attributes h attributes →
  set_attributes self [] r' attributes'
    (set_attributes self [] r attributes h).2
  = set_attributes self [] r' attributes' h.
Proof.
  intros Hnd Hnd' Hsub Hplain.
  set (h1 := (set_attributes self [] r attributes h).2).
  pose proof (eq_sym (iter_modules_same_graph _ _ self (set_attributes_same_graph h self [] r attributes Hplain)))
    as Hmods. fold h1 in Hmods.
  destruct (set_attributes_run h self [] r attributes)
    as (rem1 & h1' & Hrun1 & Hout1 & Hin1 & _).
  assert (h1 = h1') as <- by (unfold h1; by rewrite Hrun1). clear Hrun1.
  destruct (set_attributes_run h1 self [] r' attributes')
    as (rem2 & h2 & -> & Hout2 & Hin2 & Hrem2).
  destruct (set_attributes_run h self [] r' attributes')
    as (rem3 & h3 & -> & Hout3 & Hin3 & Hrem3).
  rewrite Hmods in Hout2, Hin2.
  assert (∀ path a o, visit_obj (predicates_of []) attributes path a o
                      = update_obj attributes o) as Hvisit1 by done.
  assert (∀ path a o, visit_obj (predicates_of []) attributes' path a o
                      = update_obj attributes' o) as Hvisit2 by done.
  assert (h2 = h3) as ->.
  { apply map_eq. intros a.
    destruct (decide (a ∈ (iter_modules h self).*2)) as [Hin|Hnot].
    - apply list_elem_of_fmap in Hin as ([path a'] & -> & Hin). simpl.
      destruct (iter_modules_lookup _ _ _ _ Hin) as (cls & vars & Ho & _).
      rewrite (Hin3 _ _ _ Hin Ho), Hvisit2.
      pose proof (Hin1 _ _ _ Hin Ho) as Ho1. rewrite Hvisit1 in Ho1.
      rewrite (Hin2 _ _ _ Hin Ho1), Hvisit2.
      by rewrite update_obj_override.
    - by rewrite Hout2, Hout3, Hout1. }
  assert (rem2 = rem3) as ->; [|done].
  apply set_eq. intros n. rewrite Hrem2, Hrem3. unfold not_found.
  rewrite Hmods. split; intros [Hn Hall]; (split; [done|]).
  - intros path module o Hin Ho Hsel.
    pose proof (Hin1 _ _ _ Hin Ho) as Ho1.
    rewrite <- (set_attributes_hasattr h self [] r attributes).
    by eapply Hall.
  - intros path module o1 Hin Ho1 Hsel.
    destruct (iter_modules_lookup _ _ _ _ Hin) as (cls & vars & Ho & _).
    unfold h1. rewrite set_attributes_hasattr. by eapply Hall.
Qed.

(** X11: switching modes.  When no object keeps a graph node under the name
    [deterministic] or [use_running_average], the last of [train()] and
    [eval()] decides: [eval()] after [train()] is [eval()], [train()]
    after [eval()] is [train()], and calling either twice is calling it
    once, in the outcome and in the store left behind. *)
Theorem train_eval_toggle h self :
  plain_attribute h "deterministic" →
  plain_attribute h "use_running_average" →
  eval self [] (train self [] h).2 = eval self [] h ∧
  train self [] (eval self [] h).2 = train self [] h ∧
  train self [] (train self [] h).2 = train self [] h ∧
  eval self [] (eval self [] h).2 = eval self [] h.
Proof.
  intros Hd Hu. unfold train, eval. rewrite !call_set_attributes_nil.
  assert (∀ b, plain_attributes h [("deterministic", VBool b);
                                   ("use_running_average", VBool b)]) as Hplain.
  { intros b. by repeat constructor. }
  assert (∀ b : bool, NoDup [("deterministic", VBool b);
                             ("use_running_average", VBool b)].*1) as Hnd.
  { intros b. simpl. apply (bool_decide_unpack _). by vm_compute. }
  repeat split; by apply set_attributes_override.
Qed.

Lemma train_eval_toggle_witness :
  eval 1%positive [] (train 1%positive [] block_heap).2
  = eval 1%positive [] block_heap.
Proof.
  refine (proj1 (train_eval_toggle block_heap 1%positive _ _));
    apply (bool_decide_unpack _); vm_compute; exact I.
Defined.

(** ** The order on paths *)

Lemma string_ltb_leb (a b : string) :
  String.ltb a b = true ↔ String.leb a b = true ∧ a ≠ b.
Proof.
  unfold String.ltb, String.leb.
  destruct (String.compare a b) eqn:Hc.
  - apply String.compare_eq_iff in Hc. naive_solver.
  - split; [|done]. intros _. split; [done|]. intros ->.
    pose proof (String.compare_antisym b b) as E. by rewrite Hc in E.
  - naive_solver.
Qed.

Lemma string_ltb_trans (a b c : string) :
  String.ltb a b = true → String.ltb b c = true → String.ltb a c = true.
Proof.
  rewrite !string_ltb_leb. intros [Hab Hne] [Hbc Hne'].
  split; [by eapply string_leb_trans|]. intros ->.
  apply Hne. by apply String.leb_antisym.
Qed.

Lemma path_leb_trans (p q r : PathParts) :
  path_leb p q = true → path_leb q r = true → path_leb p r = true.
Proof.
  revert q r. induction p as [|a p IH]; intros [|b q] [|c r]; simpl; try done.
  destruct (String.eqb a b) eqn:Hab, (String.eqb b c) eqn:Hbc.
  - apply String.eqb_eq in Hab as ->. apply String.eqb_eq in Hbc as ->.
    rewrite String.eqb_refl. apply IH.
  - apply String.eqb_eq in Hab as ->. rewrite Hbc. by intros.
  - apply String.eqb_eq in Hbc as <-. rewrite Hab. by intros.
  - intros H1 H2. pose proof (string_ltb_trans _ _ _ H1 H2) as H3.
    destruct (String.eqb a c) eqn:Hac; [|done].
    apply String.eqb_eq in Hac as ->.
    apply string_ltb_leb in H1 as [H1 _]. apply string_ltb_leb in H2 as [H2 _].
    apply String.eqb_neq in Hab. exfalso. apply Hab.
    by apply String.leb_antisym.
Qed.

Lemma path_leb_antisym (p q : PathParts) :
  path_leb p q = true → path_leb q p = true → p = q.
Proof.
  revert q. induction p as [|a p IH]; intros [|b q]; simpl; try done.
  rewrite (String.eqb_sym b a).
  destruct (String.eqb a b) eqn:Hab.
  - apply String.eqb_eq in Hab as ->. intros H1 H2. f_equal. by apply IH.
  - intros H1 H2. apply string_ltb_leb in H1 as [H1 _].
    apply string_ltb_leb in H2 as [H2 _].
    apply String.eqb_neq in Hab. exfalso. apply Hab. by apply String.leb_antisym.
Qed.

Global Instance path_le_trans : Transitive path_le.
Proof. intros p q r. apply path_leb_trans. Qed.

Global Instance entry_le_trans {V} : Transitive (@entry_le V).
Proof. intros x y z. apply path_leb_trans. Qed.

Lemma sorted_entries_unique {V} (l1 l2 : list (PathParts * V)) :
  NoDup l1.*1 → Sorted entry_le l1 → Sorted entry_le l2 → l1 ≡ₚ l2 → l1 = l2.
Proof.
  intros Hnd Hs1 Hs2 Hperm.
  apply (Sorted_unique_strong entry_le); try done.
  intros [k1 v1] [k2 v2] H1 H2 Hle1 Hle2.
  assert (k1 = k2) as <- by by apply path_leb_antisym.
  rewrite <- Hperm in H2.
  f_equal. clear -Hnd H1 H2.
  induction l1 as [|[k v] l1 IH]; [by apply elem_of_nil in H1|].
  simpl in Hnd. apply NoDup_cons in Hnd as [Hk Hnd].
  assert (∀ w, (k, w) ∈ l1 → False) as Hfresh.
  { intros w Hw. apply Hk. apply list_elem_of_fmap. by exists (k, w). }
  apply elem_of_cons in H1 as [H1|H1]; apply elem_of_cons in H2 as [H2|H2].
  - congruence.
  - injection H1 as -> ->. exfalso. eauto.
  - injection H2 as -> ->. exfalso. eauto.
  - by apply IH.
Qed.

Lemma Sorted_entry_le_keys {V} (l : list (PathParts * V)) :
  Sorted path_le l.*1 → Sorted entry_le l.
Proof.
  induction l as [|[k v] l IH]; [constructor|].
  intros Hs. apply Sorted_inv in Hs as [Hs Hhd]. constructor; [by apply IH|].
  destruct l as [|[k' v'] l]; [constructor|].
  apply HdRel_inv in Hhd. by constructor.
Qed.

Lemma State_of_list_to_map (items : list (PathParts * value)) :
  NoDup items.*1 → State_of items = list_to_map items.
Proof.
  intros Hnd. apply map_eq. intros path. unfold State_of.
  rewrite State_of_lookup by done. rewrite lookup_empty.
  by destruct ((list_to_map items : State) !! path).
Qed.

(** The sorted items of the mapping built from sorted keys and as many
    leaves are those keys paired with those leaves. *)
Lemma sorted_State_of_zip (keys : list PathParts) (variables : list value) :
  NoDup keys → Sorted path_le keys → length variables = length keys →
  merge_sort entry_le (map_to_list (State_of (zip keys variables)))
  = zip keys variables.
Proof.
  intros Hnd Hs Hlen.
  assert ((zip keys variables).*1 = keys) as Hfst.
  { apply fst_zip. lia. }
  symmetry. apply sorted_entries_unique.
  - by rewrite Hfst.
  - apply Sorted_entry_le_keys. by rewrite Hfst.
  - apply (Sorted_merge_sort entry_le).
  - rewrite merge_sort_Permutation, State_of_list_to_map by by rewrite Hfst.
    rewrite map_to_list_to_map; [done|by rewrite Hfst].
Qed.

Lemma dom_State_of_zip (keys : list PathParts) (variables : list value) :
  NoDup keys → length variables = length keys →
  dom (State_of (zip keys variables)) = list_to_set keys.
Proof.
  intros Hnd Hlen.
  assert ((zip keys variables).*1 = keys) as Hfst by (apply fst_zip; lia).
  rewrite State_of_list_to_map by by rewrite Hfst.
  by rewrite dom_list_to_map_L, Hfst.
Qed.

(** ** The pytree hooks as JAX uses them *)

Lemma flatten_child_values (key_values : list (PathParts * value)) with_keys :
  child_value <$> (if with_keys : bool
                   then (λ '(key, v), KeyedChild key v) <$> key_values
                   else (λ '(_, v), PlainChild v) <$> key_values)
  = key_values.*2.
Proof.
  destruct with_keys; induction key_values as [|[k v] kvs IH]; csimpl;
    by f_equal.
Qed.

(** X12: the two flattening functions a pytree class is registered with agree:
    with keys or without, [_module_flatten] returns or fails together,
    with the same auxiliary data and the same leaves in the same order;
    the keyed children are those leaves, each next to its key.  The keys
    are pairwise different, sorted, and as many as the children. *)
Theorem module_flatten_with_keys {GraphDef : Type}
    (split : heap → addr → option (GraphDef * State)) h m :
  (_module_flatten split h m true = None ↔ split h m = None) ∧
  (_module_flatten split h m false = None ↔ split h m = None) ∧
  ∀ children keys g,
    _module_flatten split h m true = Some (children, (keys, g)) →
    _module_flatten split h m false
      = Some (PlainChild <$> (child_value <$> children), (keys, g)) ∧
    children = zip_with KeyedChild keys (child_value <$> children) ∧
    length children = length keys ∧
    NoDup keys ∧ Sorted path_le keys.
Proof.
  unfold _module_flatten.
  destruct (split h m) as [[g s]|]; [|done].
  split; [done|]. split; [done|].
  intros children keys g' [= <- <- <-].
  set (key_values := merge_sort entry_le (map_to_list s)).
  assert (key_values ≡ₚ map_to_list s) as Hperm by apply merge_sort_Permutation.
  rewrite (flatten_child_values key_values true).
  pose proof (flatten_children_keys key_values false) as Hplain.
  pose proof (flatten_children_keys key_values true) as Hkeyed.
  simpl in Hplain, Hkeyed.
  split; [|split; [|split; [|split]]].
  - by rewrite Hplain.
  - done.
  - by rewrite !length_fmap.
  - rewrite Hperm. apply NoDup_fst_map_to_list.
  - apply (Sorted_fmap fst entry_le path_le); [done|].
    apply (Sorted_merge_sort entry_le).
Qed.

Lemma module_flatten_with_keys_witness :
  ∃ children keys g,
    _module_flatten graph_split block_heap 1%positive false
      = Some (PlainChild <$> (child_value <$> children), (keys, g)) ∧
    children = zip_with KeyedChild keys (child_value <$> children) ∧
    length children = length keys ∧
    NoDup keys ∧ Sorted path_le keys.
Proof.
  eexists _, _, _.
  refine (proj2 (proj2 (module_flatten_with_keys graph_split block_heap
                          1%positive)) _ _ _ _).
  vm_compute. reflexivity.
Defined.

(** [graph.merge] with other leaves: merging the description of a module
    with any mapping over the same paths builds a module whose split is
    that description and that mapping. *)
Lemma graph_merge_split_state h m g s0 s (h0 : heap) :
  graph_split h m = Some (g, s0) →
  dom s = dom s0 →
  ∃ m' h', graph_merge g s h0 = Some (m', h') ∧
           graph_split h' m' = Some (g, s).
Proof.
  unfold graph_split.
  destruct (_graph_flatten (S (size h)) h (VRef m) [] (∅, ∅))
    as [[g' [refs' s']]|] eqn:Hrun; [|done].
  intros [= -> ->] Hs.
  pose proof (_graph_flatten_grows _ _ _ _ _ _ _ Hrun) as (_ & _ & _ & Hdom).
  simpl in Hdom. rewrite dom_empty_L, (left_id_L ∅ (∪)) in Hdom.
  rewrite <- Hs in Hdom.
  destruct (sim (S (size h)) h _ _ _ _ _ _ _ Hrun) with (s := s) (idx := (∅ : gmap nat addr)) (hm := h0)
    as (v' & idx' & hm' & Hm & Hok & Hre).
  { intros a i. by rewrite lookup_empty. }
  { split.
    - intros i. rewrite lookup_empty, map_size_empty. split; [by intros [? ?]|lia].
    - intros i a. by rewrite lookup_empty. }
  { intros p Hp. apply elem_of_dom. rewrite Hdom. set_solver. }
  destruct (_graph_unflatten_ref _ _ _ _ _ _ _ _ _ _ _ Hrun Hm) as [a' ->].
  exists a', hm'. split; [unfold graph_merge; by rewrite Hm|].
  destruct (Hre hm' ∅ ∅) as (refs2 & s2 & Hrun2 & _ & _ & Hs2); [done| |done|].
  { intros i a. by rewrite !lookup_empty. }
  assert (s2 = s) as ->.
  { apply map_eq. intros p. rewrite Hs2. case_decide as Hp; [done|].
    rewrite lookup_empty. symmetry. apply not_elem_of_dom. rewrite Hdom.
    set_solver. }
  pose proof (_graph_flatten_grows _ _ _ _ _ _ _ Hrun2)
    as (_ & Hdom2 & Hsz2 & _). simpl in Hdom2, Hsz2.
  rewrite map_size_empty in Hsz2.
  assert (size refs2 ≤ size hm')%nat as Hle.
  { rewrite <- !size_dom. apply subseteq_size. set_solver. }
  rewrite (_graph_flatten_fuel _ _ _ _ _ _ _ (S (size hm')) Hrun2); [done|].
  lia.
Qed.

(** X13: leaves replaced.  Unflattening the auxiliary data of a flattened
    module with any leaves, as many as there are keys, returns a module
    that flattens to those very leaves, in that order, with the same
    auxiliary data: the law [tree_map] relies on. *)
Theorem module_unflatten_flatten h m with_keys children keys g
    (variables : list value) (h0 : heap) with_keys' :
  _module_flatten graph_split h m with_keys = Some (children, (keys, g)) →
  length variables = length keys →
  ∃ m' h' children',
    _module_unflatten graph_merge (keys, g) variables h0 = Some (m', h') ∧
    _module_flatten graph_split h' m' with_keys'
      = Some (children', (keys, g)) ∧
    child_value <$> children' = variables.
Proof.
  unfold _module_flatten at 1.
  destruct (graph_split h m) as [[g' s0]|] eqn:Hsplit; [|done].
  intros [= <- <- <-] Hlen.
  set (key_values := merge_sort entry_le (map_to_list s0)) in *.
  assert (key_values ≡ₚ map_to_list s0) as Hperm by apply merge_sort_Permutation.
  assert (NoDup key_values.*1) as Hnd.
  { rewrite Hperm. apply NoDup_fst_map_to_list. }
  assert (Sorted path_le key_values.*1) as Hsorted.
  { apply (Sorted_fmap fst entry_le path_le); [done|].
    apply (Sorted_merge_sort entry_le). }
  set (s := State_of (zip key_values.*1 variables)).
  assert (dom s = dom s0) as Hdom.
  { unfold s. rewrite dom_State_of_zip by done.
    apply set_eq. intros p. rewrite elem_of_list_to_set, elem_of_dom.
    rewrite list_elem_of_fmap. split.
    - intros ([p' v] & -> & Hin). rewrite Hperm in Hin.
      apply elem_of_map_to_list in Hin. by eexists.
    - intros [v Hv]. exists (p, v). split; [done|]. rewrite Hperm.
      by apply elem_of_map_to_list. }
  destruct (graph_merge_split_state h m g' s0 s h0 Hsplit Hdom)
    as (m' & h' & Hmerge & Hsplit').
  exists m', h'. eexists. split; [done|].
  unfold _module_flatten. rewrite Hsplit'. unfold s.
  rewrite sorted_State_of_zip by done.
  rewrite flatten_child_values.
  assert ((zip key_values.*1 variables).*1 = key_values.*1) as ->
    by (apply fst_zip; lia).
  split; [done|]. apply snd_zip. lia.
Qed.

Lemma module_unflatten_flatten_witness :
  ∃ m' h' children',
    _module_unflatten graph_merge
      ([["linear"; "kernel"]],
       match graph_split block_heap 1%positive with
       | Some (g, _) => g
       | None => Static VNone
       end) [VInt 7] ∅ = Some (m', h') ∧
    _module_flatten graph_split h' m' false
      = Some (children',
              ([["linear"; "kernel"]],
               match graph_split block_heap 1%positive with
               | Some (g, _) => g
               | None => Static VNone
               end)) ∧
    child_value <$> children' = [VInt 7].
Proof.
  apply (module_unflatten_flatten block_heap 1%positive false
           [PlainChild (VOther "Array")]).
  - vm_compute. reflexivity.
  - reflexivity.
Defined.

(** ** The order of [iter_modules] and [iter_children] *)

Lemma NoDup_fst_functional {A B} (l : list (A * B)) :
  NoDup l.*2 →
  (∀ p a b, (p, a) ∈ l → (p, b) ∈ l → a = b) →
  NoDup l.*1.
Proof.
  induction l as [|[p a] l IH]; intros Hnd Hfun; simpl; [constructor|].
  simpl in Hnd. apply NoDup_cons in Hnd as [Ha Hnd]. constructor.
  - intros ([p' b] & -> & Hin)%list_elem_of_fmap. simpl in *.
    assert (a = b) as -> by (eapply Hfun; [left|by right]).
    apply Ha. apply list_elem_of_fmap. by exists (p', b).
  - apply IH; [done|]. intros p' x y Hx Hy. eapply Hfun; by right.
Qed.

(** X14: [iter_modules] is post-order: the root comes last, under the empty
    path; and no path is yielded twice, so that paths and modules
    correspond one to one. *)
Theorem iter_modules_root_last h self :
  is_Module h (VRef self) = true →
  last (iter_modules h self) = Some ([], self) ∧
  NoDup (iter_modules h self).*1.
Proof.
  intros Hself. split.
  - destruct (iter_graph_run h (VRef self)) as (out & V & Hrun & Hout).
    unfold iter_modules. rewrite Hout.
    assert (as_Module h (VRef self) = Some self) as Has
      by by apply as_Module_Some.
    destruct (is_Module_node _ _ Hself) as [[a items] Hnd].
    pose proof (node_dict_Some _ _ _ _ Hnd) as ([= <-] & _).
    cbn [_iter_graph] in Hrun. rewrite Hnd in Hrun.
    destruct (decide (self ∈ (∅ : gset addr))) as [Hin|_]; [set_solver|].
    destruct (iter_items _ _ _ _) as [[out' V']|]; [|done].
    injection Hrun as <- <-.
    rewrite omap_app. cbn [omap list_omap]. rewrite Has. apply last_snoc.
  - apply NoDup_fst_functional; [apply iter_modules_NoDup|].
    intros p a b Ha Hb.
    destruct (iter_modules_paths h self Hself) as [Hsound _].
    apply Hsound in Ha as [Ha _]. apply Hsound in Hb as [Hb _].
    congruence.
Qed.

Lemma iter_modules_root_last_witness :
  last (iter_modules block_heap 1%positive) = Some ([], 1%positive).
Proof.
  refine (proj1 (iter_modules_root_last block_heap 1%positive _)).
  vm_compute; reflexivity.
Defined.

Lemma StronglySorted_sublist {A} (R : relation A) l1 l2 :
  l1 `sublist_of` l2 → StronglySorted R l2 → StronglySorted R l1.
Proof.
  induction 1 as [|x l1 l2 Hsub IH|x l1 l2 Hsub IH]; intros Hs; [done|..].
  - apply StronglySorted_inv in Hs as [Hs Hx]. constructor; [by apply IH|].
    eapply Forall_forall. intros y Hy. eapply Forall_forall in Hx; [done|].
    by eapply elem_of_sublist.
  - apply StronglySorted_inv in Hs as [Hs _]. by apply IH.
Qed.

Lemma omap_keys_sublist {A B C} (f : B → option C) (items : list (A * B)) :
  (omap (λ '(key, v), (λ a, (key, a)) <$> f v) items).*1
    `sublist_of` items.*1.
Proof.
  induction items as [|[k v] items IH]; simpl; [done|].
  destruct (f v); simpl.
  - by apply sublist_skip.
  - by apply sublist_cons.
Qed.

(** X15: [iter_children] yields the children in the order of their attribute
    names, and no name twice. *)
Theorem iter_children_sorted h m :
  NoDup (iter_children h m).*1 ∧ Sorted str_le (iter_children h m).*1.
Proof.
  unfold iter_children, node_dict.
  destruct (h !! m) as [[cls vars|]|]; simpl; try by repeat constructor.
  set (items := merge_sort item_le (map_to_list vars)).
  pose proof (omap_keys_sublist (as_Module h) items) as Hsub.
  split.
  - eapply sublist_NoDup; [|exact Hsub]. unfold items.
    rewrite merge_sort_Permutation. apply NoDup_fst_map_to_list.
  - apply StronglySorted_Sorted.
    eapply StronglySorted_sublist; [exact Hsub|].
    apply (Sorted_StronglySorted str_le).
    apply (Sorted_fmap fst item_le str_le); [done|].
    apply (Sorted_merge_sort item_le).
Qed.

(** ** [__treescope_repr__] *)

Lemma treescope_children_lookup (items : list (string * value)) :
  ∀ (acc : gmap string value) name,
  NoDup items.*1 →
  foldl (λ children '(name, v),
           if String.prefix "_" name then children
           else <[name := v]> children) acc items !! name
  = if String.prefix "_" name then acc !! name
    else match (list_to_map items : gmap string value) !! name with
         | Some v => Some v
         | None => acc !! name
         end.
Proof.
  induction items as [|[k v] items IH]; intros acc name Hnd; simpl.
  - rewrite lookup_empty. by destruct (String.prefix "_" name).
  - simpl in Hnd. apply NoDup_cons in Hnd as [Hk Hnd].
    rewrite IH by done.
    destruct (String.prefix "_" name) eqn:Hname.
    + destruct (String.prefix "_" k) eqn:Hkp; [done|].
      rewrite lookup_insert_ne; [done|]. intros ->. congruence.
    + destruct (decide (k = name)) as [->|Hne].
      * rewrite Hname, !lookup_insert_eq.
        by rewrite (not_elem_of_list_to_map_1 (M:=gmap string) _ _ Hk).
      * rewrite (lookup_insert_ne _ k name) by done.
        destruct ((list_to_map items : gmap string value) !! name); [done|].
        destruct (String.prefix "_" k); [done|]. by rewrite lookup_insert_ne.
Qed.

(** X16: the renderer is handed every attribute of the object whose name does
    not start with an underscore, with its value, and no other. *)
Theorem treescope_children_public vars name :
  treescope_children vars !! name
  = if String.prefix "_" name then None else vars !! name.
Proof.
  unfold treescope_children.
  rewrite treescope_children_lookup by apply NoDup_fst_map_to_list.
  rewrite list_to_map_to_list, lookup_empty.
  destruct (String.prefix "_" name); [done|]. by destruct (vars !! name).
Qed.

(** ** A module without submodules *)

Lemma omap_all_None {A B} (f : A → option B) (l : list A) :
  Forall (λ x, f x = None) l → omap f l = [].
Proof.
  induction 1 as [|x l Hx _ IH]; simpl; [done|]. by rewrite Hx.
Qed.

(** X17: A module none of whose attributes holds a graph node: [iter_modules]
    yields the module itself, under the empty path, and nothing else;
    [iter_children] yields nothing. *)
Theorem iter_modules_leaf h self cls vars :
  h !! self = Some (ObjectInstance cls vars) →
  cls_is_module cls = true →
  map_Forall (λ _ v, node_addr h v = None) vars →
  iter_modules h self = [([], self)] ∧ iter_children h self = [].
Proof.
  intros Hself Hcls Hleaf.
  assert (is_Module h (VRef self) = true) as Hmod by (simpl; by rewrite Hself).
  assert (as_Module h (VRef self) = Some self) as Has by by apply as_Module_Some.
  assert (Forall (λ kv : Key * value, node_addr h kv.2 = None)
            (merge_sort item_le (map_to_list vars))) as Hitems.
  { apply Forall_forall. intros [k v] Hin.
    rewrite merge_sort_Permutation in Hin. apply elem_of_map_to_list in Hin.
    by apply (Hleaf k v). }
  split.
  - destruct (iter_graph_run h (VRef self)) as (out & V & Hrun & Hout).
    unfold iter_modules. rewrite Hout.
    cbn [_iter_graph] in Hrun. unfold node_dict in Hrun. rewrite Hself in Hrun.
    destruct (decide (self ∈ (∅ : gset addr))) as [Hin|_]; [set_solver|].
    destruct (iter_items _ _ _ _) as [[out' V']|] eqn:Hloop; [|done].
    injection Hrun as <- <-.
    apply (iter_items_skip h) in Hloop as (out2 & Hloop & Hmods);
      [|intros; by eapply _iter_graph_leaf].
    assert (node_items h (merge_sort item_le (map_to_list vars)) = []) as E.
    { unfold node_items. clear Hloop.
      induction Hitems as [|[k v] l Hx _ IH]; [done|].
      rewrite filter_cons. simpl in Hx. simpl.
      destruct (decide (is_Some (node_addr h v))) as [[? Hv]|_]; [congruence|].
      exact IH. }
    rewrite E in Hloop. injection Hloop as <- _.
    change (yielded_modules h (out' ++ [([], VRef self)]) = [([], self)]).
    by rewrite yielded_modules_app, <- Hmods, yielded_modules_singleton, Has.
  - unfold iter_children, node_dict. rewrite Hself.
    apply omap_all_None. eapply Forall_impl; [exact Hitems|].
    intros [k v] Hv. simpl in *. by rewrite as_Module_not_node.
Qed.

Lemma iter_modules_leaf_witness :
  iter_modules block_heap 6%positive = [([], 6%positive)] ∧
  iter_children block_heap 6%positive = [].
Proof.
  refine (iter_modules_leaf block_heap 6%positive _ _ _ _ _).
  - vm_compute; reflexivity.
  - reflexivity.
  - apply (bool_decide_unpack _). vm_compute. exact I.
Defined.
